(** * geospade.operation: polygon rasterisation and affine geotransforms

    A shallow embedding of [src/geospade/operation.py] together with the
    properties its specification states about it.

    Numbers.  The Python code computes with [int] and [float].  Integers
    (grid indices, the buffer, row and column counts) are [Z]; every other
    number is an exact rational [Q], compared with [Qeq].  Rounding errors of
    binary64 arithmetic are therefore outside this model: the theorems below
    speak about the algorithm in exact arithmetic.

    Exceptions.  A Python call either returns a value or raises; it is
    embedded as a function into [result], and the exceptions that the
    embedded code can raise are the constructors of [exception]. *)

From Stdlib Require Import String.
From Stdlib Require Import ZArith QArith Qabs Qround.
From Stdlib Require Import List Bool Lia Lqa.
Import ListNotations.

Local Open Scope Z_scope.

(** ** Exceptions and results *)

Inductive exception : Type :=
| ValueError          (* unpacking an empty zip, negative array dimensions *)
| ZeroDivisionError   (* division by a zero resolution or determinant *)
| IndexError          (* array index outside the array *)
| Warning (msg : string).  (* [raise Warning(...)] in [ij2xy] *)

Inductive result (A : Type) : Type :=
| Ok (a : A)
| Raise (e : exception).

Arguments Ok {A} a.
Arguments Raise {A} e.

Definition bind {A B : Type} (c : result A) (k : A -> result B) : result B :=
  match c with
  | Ok a => k a
  | Raise e => Raise e
  end.

Notation "'let*' x ':=' c 'in' k" := (bind c (fun x => k))
  (at level 10, x pattern, c at level 100, k at level 200).

(** ** Python built-ins on numbers *)

(** [round(x)] with one argument: the nearest integer, ties to the even
    neighbour. *)
Definition round (x : Q) : Z :=
  let f := Qfloor x in
  match (x - inject_Z f ?= 1 # 2)%Q with
  | Lt => f
  | Gt => f + 1
  | Eq => if Z.even f then f else f + 1
  end.

(** [a / b] on Python numbers raises when the divisor is zero. *)
Definition truediv (a b : Q) : result Q :=
  if Qeq_bool b 0 then Raise ZeroDivisionError else Ok (a / b)%Q.

(** [min(xs)] and [max(xs)] scan from the left and keep the first extremal
    element; on an empty sequence they raise [ValueError]. *)
Definition min (xs : list Q) : result Q :=
  match xs with
  | [] => Raise ValueError
  | x :: rest =>
      Ok (fold_left (fun m y => if Qlt_le_dec y m then y else m) rest x)
  end.

Definition max (xs : list Q) : result Q :=
  match xs with
  | [] => Raise ValueError
  | x :: rest =>
      Ok (fold_left (fun m y => if Qlt_le_dec m y then y else m) rest x)
  end.

(** The unpacking [xs, ys = list(zip( *points ))]: with no point at all the
    zip is empty and the unpacking into two names raises [ValueError]. *)
Definition zip_star (points : list (Q * Q)) : result (list Q * list Q) :=
  match points with
  | [] => Raise ValueError
  | _ => Ok (map fst points, map snd points)
  end.

(** The truth value of a number: non-zero. *)
Definition truthy (z : Z) : bool := negb (z =? 0).

(** ** A two-dimensional [numpy] array of [uint8] cells, row-major *)

Definition ndarray : Type := list (list Z).

(** [np.zeros((n_rows, n_cols), np.uint8)]. *)
Definition np_zeros (n_rows n_cols : Z) : result ndarray :=
  if (n_rows <? 0) || (n_cols <? 0) then Raise ValueError
  else Ok (repeat (repeat 0 (Z.to_nat n_cols)) (Z.to_nat n_rows)).

(** An integer index into an axis of length [n]: negative indices count from
    the end, anything outside [-n, n) raises [IndexError]. *)
Definition np_index (n : nat) (i : Z) : result nat :=
  let n' := Z.of_nat n in
  if (i <? - n') || (n' <=? i) then Raise IndexError
  else Ok (Z.to_nat (if i <? 0 then i + n' else i)).

Fixpoint list_set {A : Type} (n : nat) (v : A) (l : list A) : list A :=
  match l, n with
  | [], _ => []
  | _ :: l', O => v :: l'
  | x :: l', S n' => x :: list_set n' v l'
  end.

(** [raster[i, j] = v]. *)
Definition setitem (raster : ndarray) (i j : Z) (v : Z) : result ndarray :=
  let* i' := np_index (length raster) i in
  let row := nth i' raster [] in
  let* j' := np_index (length row) j in
  Ok (list_set i' (list_set j' v row) raster).

(** [raster[i, j]], for indices inside the array (0 outside). *)
Definition cell (raster : ndarray) (i j : nat) : Z :=
  nth j (nth i raster []) 0.

(** [sum(row)]: the number of flagged cells, as an integer that does not
    wrap around (the built-in [sum] starts from the [int] 0). *)
Definition sum (row : list Z) : Z := fold_right Z.add 0 row.

(** [a[b:-b]] for [b > 0]. *)
Definition slice_both {A : Type} (b : nat) (l : list A) : list A :=
  firstn (length l - b - b) (skipn b l).

(** ** [rasterise_polygon] *)

Definition EPS : Q := 1 # 1000000.

Section Contour.

(** The locals of [rasterise_polygon] that the contour pass reads. *)
Variables (sres : Q) (buffer : Z) (x_min y_max : Q).

(** The row and column of the cell hit at height [y] on an edge. *)
Definition row_index (y : Q) : Z :=
  round (Qabs (y - y_max) / sres) + buffer.

Definition col_index (x : Q) : Z :=
  round (Qabs (x - x_min) / sres) + buffer.

(** The [while abs(y - y_end - sres) >= EPS] loop, unrolled at most [fuel]
    times; [None] means the fuel ran out before the loop ended. *)
Fixpoint walk (fuel : nat) (k : option Q) (y_start y_end x_start : Q)
         (y : Q) (raster : ndarray) : option (result ndarray) :=
  match fuel with
  | O => None
  | S fuel' =>
      if Qle_bool EPS (Qabs (y - y_end - sres)) then
        let x := match k with
                 | Some k => ((y - y_start) / k + x_start)%Q
                 | None => x_start
                 end in
        let i := row_index y in
        let j := col_index x in
        match setitem raster i j 1 with
        | Ok raster' =>
            walk fuel' k y_start y_end x_start (y + sres)%Q raster'
        | Raise e => Some (Raise e)
        end
      else Some (Ok raster)
  end.

(** Iterations after which the loop has certainly ended: the row index
    moves away from its first value by one per step and leaves the array
    (see [walk_fuel_enough]). *)
Definition walk_fuel (y : Q) (raster : ndarray) : nat :=
  (length raster + Z.abs_nat buffer + Z.abs_nat (row_index y - buffer) + 4)%nat.

(** The loop with that fuel.  For a resolution other than 0, the only ones
    that reach the loop, the fuel never runs out ([walk_fuel_enough]). *)
Definition while_loop (k : option Q) (y_start y_end x_start : Q)
           (raster : ndarray) : result ndarray :=
  match walk (walk_fuel y_start raster) k y_start y_end x_start y_start raster with
  | Some r => r
  | None => Raise IndexError
  end.

(** The body of [for idx in range(1, len(xs))] for one pair of vertices. *)
Definition draw_edge (x_1 y_1 x_2 y_2 : Q) (raster : ndarray)
  : result ndarray :=
  let x_diff := (x_2 - x_1)%Q in
  let y_diff := (y_2 - y_1)%Q in
  if Qeq_bool y_diff 0 then Ok raster
  else
    let k := if negb (Qeq_bool x_diff 0) then Some (y_diff / x_diff)%Q
             else None in
    if Qlt_le_dec y_1 y_2
    then while_loop k y_1 y_2 x_1 raster
    else while_loop k y_2 y_1 x_2 raster.

Fixpoint for_each (idxs : list nat) (body : nat -> ndarray -> result ndarray)
         (raster : ndarray) : result ndarray :=
  match idxs with
  | [] => Ok raster
  | idx :: rest => let* raster' := body idx raster in for_each rest body raster'
  end.

(** [for idx in range(1, len(xs)): ...]. *)
Definition contour (xs ys : list Q) (raster : ndarray) : result ndarray :=
  for_each (seq 1 (length xs - 1))
    (fun idx raster =>
       let x_1 := nth (idx - 1) xs 0%Q in
       let x_2 := nth idx xs 0%Q in
       let y_1 := nth (idx - 1) ys 0%Q in
       let y_2 := nth idx ys 0%Q in
       draw_edge x_1 y_1 x_2 y_2 raster)
    raster.

End Contour.

(** The inner loop [for j in range(n_cols)] of the fill pass on one row;
    [is_inner] is the integer that [~] toggles between 0 and -1. *)
Fixpoint fill_cols (is_inner : Z) (row : list Z) : list Z :=
  match row with
  | [] => []
  | c :: rest =>
      let is_inner := if truthy c then Z.lnot is_inner else is_inner in
      (if truthy is_inner then 1 else c) :: fill_cols is_inner rest
  end.

Definition fill_row (row : list Z) : list Z :=
  if sum row <? 2 then row else fill_cols 0 row.

(** [for i in range(n_rows): ...]: the raster has [n_rows] rows of [n_cols]
    cells, so the two loops visit every row and every cell of it. *)
Definition fill (raster : ndarray) : ndarray := map fill_row raster.

(** Modelled from the spec: [cv2.erode] is OpenCV's, its code is not part of
    the repository.  One iteration with the full 3x3 kernel keeps a cell at
    1 only if the cell and all of its neighbours inside the image are 1 (the
    minimum over the neighbourhood; cells outside the image do not constrain
    it). *)
Definition pixel_or_border (img : ndarray) (r c : Z) : Z :=
  if (r <? 0) || (c <? 0) then 255
  else match nth_error img (Z.to_nat r) with
       | None => 255
       | Some row => nth (Z.to_nat c) row 255
       end.

Definition erode_pixel (img : ndarray) (r c : Z) : Z :=
  fold_right Z.min 255
    (map (fun d => pixel_or_border img (r + fst d) (c + snd d))
         (list_prod [-1; 0; 1] [-1; 0; 1])).

Definition erode_once (img : ndarray) : ndarray :=
  map (fun r =>
         map (fun c => erode_pixel img (Z.of_nat r) (Z.of_nat c))
             (seq 0 (length (nth r img []))))
      (seq 0 (length img)).

Definition erode (img : ndarray) (iterations : Z) : ndarray :=
  Nat.iter (Z.to_nat iterations) erode_once img.

(** The raster after the contour pass (the "edge flags"). *)
Definition edge_flags (points : list (Q * Q)) (sres : Q) (buffer : Z)
  : result ndarray :=
  let* (xs, ys) := zip_star points in
  let* x_min := min xs in
  let* x_max := max xs in
  let* y_min := min ys in
  let* y_max := max ys in
  let* rows := truediv (y_max - y_min) sres in
  let n_rows := round rows + 1 + 2 * buffer in
  let* cols := truediv (x_max - x_min) sres in
  let n_cols := round cols + 1 + 2 * buffer in
  let* raster := np_zeros n_rows n_cols in
  contour sres buffer x_min y_max xs ys raster.

(** The raster after the fill pass, before erosion and cropping. *)
Definition filled_raster (points : list (Q * Q)) (sres : Q) (buffer : Z)
  : result ndarray :=
  let* raster := edge_flags points sres buffer in
  Ok (fill raster).

(** [if buffer != 0.: erode and crop]. *)
Definition apply_buffer (raster : ndarray) (buffer : Z) : ndarray :=
  if negb (buffer =? 0) then
    let raster := erode raster buffer in
    map (slice_both (Z.to_nat buffer)) (slice_both (Z.to_nat buffer) raster)
  else raster.

Definition rasterise_polygon (points : list (Q * Q)) (sres : Q) (buffer : Z)
  : result ndarray :=
  let buffer := Z.abs buffer in
  let* raster := filled_raster points sres buffer in
  Ok (apply_buffer raster buffer).

(** ** Geotransforms *)

(** The six parameters of a GDAL geotransform, [gt[0]] to [gt[5]]. *)
Record geotransform : Type := GT {
  gt_0 : Q; gt_1 : Q; gt_2 : Q; gt_3 : Q; gt_4 : Q; gt_5 : Q
}.

(** [math.radians(x)] multiplies by the double nearest to pi/180; this is
    that double's exact value. *)
Definition degToRad : Q := 5030569068109113 # 288230376151711744.

Definition radians (x : Q) : Q := (x * degToRad)%Q.

Section Trigonometry.

(** [math.cos] and [math.sin] are library functions; the construction is
    embedded for any pair of functions in their place.  The body is read as
    plain Python; the [@jit] decorator is not modelled. *)
Variables cos sin : Q -> Q.

Definition construct_geotransform (origin : Q * Q) (rot : Q) (px : Q * Q)
           (deg : bool) : geotransform :=
  let alpha := if deg then inject_Z (round (radians rot)) else rot in
  let '(x_ps, y_ps) := px in
  {| gt_0 := fst origin;
     gt_1 := (cos alpha * x_ps)%Q;
     gt_2 := (- sin alpha * x_ps)%Q;
     gt_3 := snd origin;
     gt_4 := (sin alpha * y_ps)%Q;
     gt_5 := (cos alpha * y_ps)%Q |}.

End Trigonometry.


(** A dictionary with string keys, in insertion order. *)
Fixpoint dict_get {V : Type} (d : list (string * V)) (key : string)
  : option V :=
  match d with
  | [] => None
  | (k, v) :: d' => if String.eqb key k then Some v else dict_get d' key
  end.

Definition px_shift_map : list (string * (Q * Q)) :=
  [("ul", (0, 0)); ("ur", (1, 0)); ("lr", (1, 1)); ("ll", (0, 1));
   ("c", (1 # 2, 1 # 2))]%Q%string.

Definition user_wrng (origin : string) : string :=
  ("Pixel origin '" ++ origin
   ++ "' unknown. Upper left origin 'ul' will be taken instead")%string.

(** [ij2xy]: pixel indexes to world coordinates. *)
Definition ij2xy (i j : Q) (gt : geotransform) (origin : string)
  : result (Q * Q) :=
  let* px_shift :=
    match dict_get px_shift_map origin with
    | Some shift => Ok shift
    | None => Raise (Warning (user_wrng origin))
    end in
  let i := (i + fst px_shift)%Q in
  let j := (j + snd px_shift)%Q in
  let x := (gt_0 gt + i * gt_1 gt + j * gt_2 gt)%Q in
  let y := (gt_3 gt + i * gt_4 gt + j * gt_5 gt)%Q in
  Ok (x, y).

(** ** Definitions used to state the properties *)

(** The ring of the concrete scenario. *)
Definition unit_square_ring : list (Q * Q) :=
  [(0, 0); (2, 0); (2, 2); (0, 2); (0, 0)]%Q.

(** The edges of an open polyline: each vertex paired with its successor,
    the last vertex with nothing. *)
Fixpoint consecutive_pairs (points : list (Q * Q))
  : list ((Q * Q) * (Q * Q)) :=
  match points with
  | [] => []
  | p :: rest =>
      match rest with
      | [] => []
      | q :: _ => (p, q) :: consecutive_pairs rest
      end
  end.

(** The contour pass of a polyline given by its list of edges. *)
Fixpoint draw_edges (sres : Q) (buffer : Z) (x_min y_max : Q)
         (edges : list ((Q * Q) * (Q * Q))) (raster : ndarray)
  : result ndarray :=
  match edges with
  | [] => Ok raster
  | (p, q) :: rest =>
      let* raster' :=
        draw_edge sres buffer x_min y_max (fst p) (snd p) (fst q) (snd q)
                  raster in
      draw_edges sres buffer x_min y_max rest raster'
  end.

(** Rasterising an open polyline: the bounding box and the raster of
    [rasterise_polygon], the contour pass over [consecutive_pairs] (no edge
    from the last vertex back to the first), then fill and buffer. *)
Definition rasterise_polyline (points : list (Q * Q)) (sres : Q) (buffer : Z)
  : result ndarray :=
  let buffer := Z.abs buffer in
  let* (xs, ys) := zip_star points in
  let* x_min := min xs in
  let* x_max := max xs in
  let* y_min := min ys in
  let* y_max := max ys in
  let* rows := truediv (y_max - y_min) sres in
  let* cols := truediv (x_max - x_min) sres in
  let* raster := np_zeros (round rows + 1 + 2 * buffer)
                          (round cols + 1 + 2 * buffer) in
  let* raster := draw_edges sres buffer x_min y_max
                            (consecutive_pairs points) raster in
  Ok (apply_buffer (fill raster) buffer).

(** The scan of one row with a boolean "inside" toggle (even-odd rule):
    flip at every flagged cell, mark the cell while inside. *)
Fixpoint fill_cols_even_odd (inside : bool) (row : list Z) : list Z :=
  match row with
  | [] => []
  | c :: rest =>
      let inside := if truthy c then negb inside else inside in
      (if inside then 1 else c) :: fill_cols_even_odd inside rest
  end.

(** [m] is the least (greatest) value of [xs]. *)
Definition is_min_of (m : Q) (xs : list Q) : Prop :=
  (exists x, In x xs /\ x == m)%Q /\ forall x, In x xs -> (m <= x)%Q.

Definition is_max_of (m : Q) (xs : list Q) : Prop :=
  (exists x, In x xs /\ x == m)%Q /\ forall x, In x xs -> (x <= m)%Q.

(** Every cell is 0 or 1. *)
Definition binary (raster : ndarray) : Prop :=
  Forall (Forall (fun c => c = 0 \/ c = 1)) raster.

(** [r] rows of [c] cells each. *)
Definition has_shape (r c : nat) (a : ndarray) : Prop :=
  length a = r /\ Forall (fun row => length row = c) a.

(** The shape that [rasterise_polygon] gives its raster for a bounding box. *)
Definition grid_shape (sres : Q) (buffer : Z) (x_min x_max y_min y_max : Q)
           (a : ndarray) : Prop :=
  has_shape (Z.to_nat (round ((y_max - y_min) / sres) + 1 + 2 * buffer))
            (Z.to_nat (round ((x_max - x_min) / sres) + 1 + 2 * buffer)) a.

(** A vertex inside a bounding box. *)
Definition in_box (x_min x_max y_min y_max : Q) (p : Q * Q) : Prop :=
  (x_min <= fst p <= x_max)%Q /\ (y_min <= snd p <= y_max)%Q.

(** A triangle whose first edge has height 3, walked in steps of 2 below. *)
Definition odd_height_triangle : list (Q * Q) :=
  [(0, 0); (0, 3); (3, 0); (0, 0)]%Q.

(** ** The other functions of the module *)

(** [a < b] on numbers, as a boolean. *)
Definition Qlt_bool (a b : Q) : bool := negb (Qle_bool b a).

(** [get_quadrant]: 1 to 4, or [None] when a coordinate is zero. *)
Definition get_quadrant (x y : Q) : option Z :=
  if Qlt_bool 0 x && Qlt_bool 0 y then Some 1
  else if Qlt_bool x 0 && Qlt_bool 0 y then Some 2
  else if Qlt_bool x 0 && Qlt_bool y 0 then Some 3
  else if Qlt_bool 0 x && Qlt_bool y 0 then Some 4
  else None.

(** [round(x, ndigits)]: the nearest multiple of [10 ** -ndigits], ties to
    the even one. *)
Definition round_ndigits (x : Q) (ndigits : nat) : Q :=
  (inject_Z (round (x * inject_Z (10 ^ Z.of_nat ndigits)))
   / inject_Z (10 ^ Z.of_nat ndigits))%Q.

Section PolarPoint.

Variables cos sin : Q -> Q.

(** [polar_point]: the point at distance [dist] and azimuth [angle] from
    [orig], both coordinates rounded to 13 decimals. *)
Definition polar_point (orig : Q * Q) (dist angle : Q) : Q * Q :=
  let '(x, y) := orig in
  let nx := round_ndigits (x + dist * cos angle) 13 in
  let ny := round_ndigits (y + dist * sin angle) 13 in
  (nx, ny).

End PolarPoint.

(** The corners that [bbox2polygon] computes from the bounding box
    [[(left, lower), (right, upper)]] (a list, as documented): the right
    longitude is moved by 360 when the box crosses the date line, and the
    corners are listed from the lower left over the upper left, the upper
    right and the lower right. *)
Definition bbox_corners (bbox : (Q * Q) * (Q * Q)) : list (Q * Q) :=
  let bbox2 := bbox in
  let bbox2 :=
    if Qlt_bool (fst (snd bbox2)) (fst (fst bbox2))
    then (fst bbox2, (fst (snd bbox2) + 360, snd (snd bbox2)))%Q
    else bbox2 in
  [(fst (fst bbox2), snd (fst bbox2));
   (fst (fst bbox2), snd (snd bbox2));
   (fst (snd bbox2), snd (snd bbox2));
   (fst (snd bbox2), snd (fst bbox2))].

Section Bbox2Polygon.

(** [create_polygon_geometry] builds an OGR geometry; OGR is a library, the
    function is a parameter here. *)
Variables Geometry SpatialReference : Type.
Variable create_polygon_geometry :
  list (Q * Q) -> option SpatialReference -> option Q -> Geometry.

Definition bbox2polygon (bbox : (Q * Q) * (Q * Q))
           (osr_sref : option SpatialReference) (segment : option Q)
  : Geometry :=
  create_polygon_geometry (bbox_corners bbox) osr_sref segment.

End Bbox2Polygon.

(** [get_inner_angle] raises, besides the exceptions above, [TypeError]. *)
Inductive py_exception : Type :=
| Builtin (e : exception)
| TypeError.

Inductive py_result (A : Type) : Type :=
| Returns (a : A)
| Raises (e : py_exception).

Arguments Returns {A} a.
Arguments Raises {A} e.

Definition py_bind {A B : Type} (c : py_result A) (k : A -> py_result B)
  : py_result B :=
  match c with
  | Returns a => k a
  | Raises e => Raises e
  end.

Notation "'let+' x ':=' c 'in' k" := (py_bind c (fun x => k))
  (at level 10, x pattern, c at level 100, k at level 200).

(** A name bound to a list of vertices or to [None]. *)
Definition py_len (v : option (list (Q * Q))) : py_result nat :=
  match v with
  | Some l => Returns (length l)
  | None => Raises TypeError
  end.

Definition py_getitem (v : option (list (Q * Q))) (i : nat)
  : py_result (Q * Q) :=
  match v with
  | None => Raises TypeError
  | Some l =>
      match nth_error l i with
      | Some p => Returns p
      | None => Raises (Builtin IndexError)
      end
  end.

Fixpoint py_for {A : Type} (idxs : list nat) (body : nat -> py_result A)
  : py_result (list A) :=
  match idxs with
  | [] => Returns []
  | i :: rest =>
      let+ a := body i in
      let+ acc := py_for rest body in
      Returns (a :: acc)
  end.

Section InnerAngle.

(** [np.arccos], the square root of [np.linalg.norm] and [np.pi]. *)
Variables (arccos sqrt : Q -> Q) (pi : Q).

(** [get_inner_angle], from [vertices = list(polygon.exterior.coords)] on:
    [coords] are those coordinates.  [vertices.append(...)] extends the list
    and returns [None], which the assignment binds to [vertices]. *)
Definition get_inner_angle (coords : list (Q * Q)) (deg : bool)
  : py_result Q :=
  let vertices := Some coords in
  let+ second := py_getitem vertices 1 in
  let appended := (coords ++ [second])%list in
  let vertices : option (list (Q * Q)) := None in
  let+ n := py_len vertices in
  let+ inner_angles :=
    py_for (seq 1 (n - 1 - 1))
      (fun i =>
         let+ prev_vertice := py_getitem vertices (i - 1) in
         let+ this_vertice := py_getitem vertices i in
         let+ next_vertice := py_getitem vertices (i + 1) in
         let a := (fst prev_vertice - fst this_vertice,
                   snd prev_vertice - snd this_vertice)%Q in
         let b := (fst next_vertice - fst this_vertice,
                   snd next_vertice - snd this_vertice)%Q in
         let dot := (fst a * fst b + snd a * snd b)%Q in
         let norm_a := sqrt (fst a * fst a + snd a * snd a)%Q in
         let norm_b := sqrt (fst b * fst b + snd b * snd b)%Q in
         Returns (arccos (dot / (norm_a * norm_b))%Q)) in
  let inner_angle_sum := fold_left Qplus inner_angles 0%Q in
  let inner_angle_sum :=
    if deg then (inner_angle_sum * (pi / 180))%Q else inner_angle_sum in
  Returns inner_angle_sum.

End InnerAngle.

(** ** Definitions used to state the further properties *)

(** The quadrant reached by a quarter turn against the clock. *)
Definition next_quadrant (q : Z) : Z := q mod 4 + 1.

(** Twice the signed area of a ring (shoelace formula): negative for a ring
    that runs with the clock. *)
Fixpoint shoelace (first : Q * Q) (ring : list (Q * Q)) : Q :=
  match ring with
  | [] => 0
  | p :: rest =>
      let q := match rest with [] => first | q :: _ => q end in
      (fst p * snd q - fst q * snd p + shoelace first rest)%Q
  end.

Definition signed_area2 (ring : list (Q * Q)) : Q :=
  match ring with
  | [] => 0
  | first :: _ => shoelace first ring
  end.







(** ** Rounding *)

Lemma round_comp (x y : Q) : (x == y)%Q -> round x = round y.
Proof.
  intros E. unfold round.
  rewrite (Qfloor_comp _ _ E).
  assert (C : (x - inject_Z (Qfloor y) ?= 1 # 2)%Q
              = (y - inject_Z (Qfloor y) ?= 1 # 2)%Q)
    by (now rewrite E).
  now rewrite C.
Qed.

Lemma round_inject_Z (z : Z) : round (inject_Z z) = z.
Proof.
  unfold round. rewrite Qfloor_Z.
  assert (C : (inject_Z z - inject_Z z ?= 1 # 2)%Q = Lt).
  { apply (proj1 (Qlt_alt _ _)). generalize (inject_Z z). intros q. lra. }
  now rewrite C.
Qed.

(** A rounded value is within one half of its argument. *)
Lemma round_bounds (x : Q) :
  (x - (1 # 2) <= inject_Z (round x) <= x + (1 # 2))%Q.
Proof.
  unfold round.
  pose proof (Qfloor_le x) as Hlo.
  pose proof (Qlt_floor x) as Hhi.
  rewrite inject_Z_plus in Hhi. change (inject_Z 1) with 1%Q in Hhi.
  destruct (x - inject_Z (Qfloor x) ?= 1 # 2)%Q eqn:C.
  - apply (proj2 (Qeq_alt _ _)) in C.
    destruct (Z.even (Qfloor x)); [| rewrite inject_Z_plus; change (inject_Z 1) with 1%Q]; lra.
  - apply (proj2 (Qlt_alt _ _)) in C. lra.
  - apply (proj2 (Qgt_alt _ _)) in C. rewrite inject_Z_plus; change (inject_Z 1) with 1%Q. lra.
Qed.


Lemma round_mono (x y : Q) : (x <= y)%Q -> round x <= round y.
Proof.
  intros Hxy.
  destruct (Z.le_gt_cases (round x) (round y)) as [H | H]; [exact H |].
  exfalso.
  pose proof (round_bounds x) as Bx. pose proof (round_bounds y) as By.
  assert (Hq : (inject_Z (round y) + 1 <= inject_Z (round x))%Q).
  { change 1%Q with (inject_Z 1). rewrite <- inject_Z_plus, <- Zle_Qle. lia. }
  assert (E : (x == y)%Q) by lra.
  apply round_comp in E. lia.
Qed.

Lemma round_nonneg (x : Q) : (0 <= x)%Q -> 0 <= round x.
Proof.
  intros H. change 0 with (round 0). now apply round_mono.
Qed.


(** ** Results and division *)

Lemma bind_ok {A B : Type} (c : result A) (k : A -> result B) (b : B) :
  bind c k = Ok b -> exists a, c = Ok a /\ k a = Ok b.
Proof.
  destruct c as [a | e]; cbn [bind]; [eauto | discriminate].
Qed.

Lemma truediv_ok (a b : Q) : ~ (b == 0)%Q -> truediv a b = Ok (a / b)%Q.
Proof.
  intros H. unfold truediv.
  destruct (Qeq_bool b 0) eqn:E; [| reflexivity].
  apply Qeq_bool_eq in E. contradiction.
Qed.


Lemma truediv_inv (a b q : Q) :
  truediv a b = Ok q -> ~ (b == 0)%Q /\ q = (a / b)%Q.
Proof.
  unfold truediv. destruct (Qeq_bool b 0) eqn:E; [discriminate |].
  intros [= <-]. split; [| reflexivity].
  intros H. apply Qeq_eq_bool in H. congruence.
Qed.

(** ** Minimum and maximum of the coordinates *)

Lemma fold_min_spec (rest : list Q) (x : Q) :
  let m := fold_left (fun m y => if Qlt_le_dec y m then y else m) rest x in
  In m (x :: rest) /\ forall y, In y (x :: rest) -> (m <= y)%Q.
Proof.
  revert x. induction rest as [| z rest IH]; intros x; cbn [fold_left].
  - split; [now left |]. intros y [<- | []]. apply Qle_refl.
  - specialize (IH (if Qlt_le_dec z x then z else x)).
    cbv zeta in IH. destruct IH as [Hin Hle]. split.
    + destruct Hin as [Hin | Hin]; [| now right; right].
      rewrite <- Hin. destruct (Qlt_le_dec z x); [right; now left | now left].
    + intros y Hy.
      assert (Hm : forall w, In w rest -> (fold_left
                (fun m y => if Qlt_le_dec y m then y else m) rest
                (if Qlt_le_dec z x then z else x) <= w)%Q)
        by (intros w Hw; apply Hle; now right).
      pose proof (Hle _ (or_introl eq_refl)) as H0.
      destruct Hy as [<- | [<- | Hy]]; [| | now apply Hm];
        destruct (Qlt_le_dec z x); lra.
Qed.

Lemma fold_max_spec (rest : list Q) (x : Q) :
  let m := fold_left (fun m y => if Qlt_le_dec m y then y else m) rest x in
  In m (x :: rest) /\ forall y, In y (x :: rest) -> (y <= m)%Q.
Proof.
  revert x. induction rest as [| z rest IH]; intros x; cbn [fold_left].
  - split; [now left |]. intros y [<- | []]. apply Qle_refl.
  - specialize (IH (if Qlt_le_dec x z then z else x)).
    cbv zeta in IH. destruct IH as [Hin Hle]. split.
    + destruct Hin as [Hin | Hin]; [| now right; right].
      rewrite <- Hin. destruct (Qlt_le_dec x z); [right; now left | now left].
    + intros y Hy.
      assert (Hm : forall w, In w rest -> (w <= fold_left
                (fun m y => if Qlt_le_dec m y then y else m) rest
                (if Qlt_le_dec x z then z else x))%Q)
        by (intros w Hw; apply Hle; now right).
      pose proof (Hle _ (or_introl eq_refl)) as H0.
      destruct Hy as [<- | [<- | Hy]]; [| | now apply Hm];
        destruct (Qlt_le_dec x z); lra.
Qed.

Lemma min_is_min (xs : list Q) (m : Q) : min xs = Ok m -> is_min_of m xs.
Proof.
  destruct xs as [| x rest]; [discriminate |]. intros [= <-].
  destruct (fold_min_spec rest x) as [Hin Hle].
  split; [| exact Hle]. eexists. split; [exact Hin | reflexivity].
Qed.

Lemma max_is_max (xs : list Q) (m : Q) : max xs = Ok m -> is_max_of m xs.
Proof.
  destruct xs as [| x rest]; [discriminate |]. intros [= <-].
  destruct (fold_max_spec rest x) as [Hin Hle].
  split; [| exact Hle]. eexists. split; [exact Hin | reflexivity].
Qed.

Lemma is_min_of_unique (m m' : Q) (xs : list Q) :
  is_min_of m xs -> is_min_of m' xs -> (m == m')%Q.
Proof.
  intros [[x [Hx Ex]] Hm] [[x' [Hx' Ex']] Hm'].
  specialize (Hm _ Hx'). specialize (Hm' _ Hx). lra.
Qed.

Lemma is_max_of_unique (m m' : Q) (xs : list Q) :
  is_max_of m xs -> is_max_of m' xs -> (m == m')%Q.
Proof.
  intros [[x [Hx Ex]] Hm] [[x' [Hx' Ex']] Hm'].
  specialize (Hm _ Hx'). specialize (Hm' _ Hx). lra.
Qed.



(** ** Arrays: updates keep the shape and the cells binary *)

Lemma list_set_length {A : Type} (n : nat) (v : A) (l : list A) :
  length (list_set n v l) = length l.
Proof.
  revert n. induction l as [| x l IH]; intros [| n]; simpl; auto.
Qed.

Lemma list_set_Forall {A : Type} (P : A -> Prop) (n : nat) (v : A)
      (l : list A) :
  Forall P l -> P v -> Forall P (list_set n v l).
Proof.
  intros Hl Hv. revert n.
  induction Hl as [| x l Hx Hl IH]; intros [| n]; simpl; auto.
Qed.

Lemma nth_list_set_same {A : Type} (n : nat) (v d : A) (l : list A) :
  (n < length l)%nat -> nth n (list_set n v l) d = v.
Proof.
  revert n. induction l as [| x l IH]; intros [| n] H; simpl in *;
    try lia; auto. apply IH. lia.
Qed.

Lemma nth_list_set_other {A : Type} (n m : nat) (v d : A) (l : list A) :
  n <> m -> nth m (list_set n v l) d = nth m l d.
Proof.
  revert n m. induction l as [| x l IH]; intros [| n] [| m] H; simpl;
    try congruence; auto.
Qed.

Lemma np_index_ok (n : nat) (i : Z) (k : nat) :
  np_index n i = Ok k ->
  (k < n)%nat /\ - Z.of_nat n <= i < Z.of_nat n.
Proof.
  unfold np_index.
  destruct (i <? - Z.of_nat n) eqn:E1; [discriminate |].
  destruct (Z.of_nat n <=? i) eqn:E2; [discriminate |].
  simpl. intros [= <-].
  apply Z.ltb_ge in E1. apply Z.leb_gt in E2.
  destruct (i <? 0) eqn:E3; [apply Z.ltb_lt in E3 | apply Z.ltb_ge in E3];
    lia.
Qed.

Lemma np_index_raises (n : nat) (i : Z) :
  i < - Z.of_nat n \/ Z.of_nat n <= i -> np_index n i = Raise IndexError.
Proof.
  unfold np_index. intros [H | H].
  - apply Z.ltb_lt in H. now rewrite H.
  - apply Z.leb_le in H. rewrite H. now rewrite orb_true_r.
Qed.

Lemma setitem_length (a a' : ndarray) (i j v : Z) :
  setitem a i j v = Ok a' -> length a' = length a.
Proof.
  unfold setitem.
  destruct (np_index (length a) i) as [i' |]; [simpl | discriminate].
  destruct (np_index (length (nth i' a [])) j) as [j' |];
    [simpl | discriminate].
  intros [= <-]. apply list_set_length.
Qed.

Lemma setitem_row_raises (a : ndarray) (i j v : Z) :
  i < - Z.of_nat (length a) \/ Z.of_nat (length a) <= i ->
  setitem a i j v = Raise IndexError.
Proof.
  intros H. unfold setitem. now rewrite (np_index_raises _ _ H).
Qed.

Lemma setitem_shape (r c : nat) (a a' : ndarray) (i j v : Z) :
  has_shape r c a -> setitem a i j v = Ok a' -> has_shape r c a'.
Proof.
  intros [Hr Hc]. unfold setitem.
  destruct (np_index (length a) i) as [i' |] eqn:Ei; [simpl | discriminate].
  destruct (np_index (length (nth i' a [])) j) as [j' |] eqn:Ej;
    [simpl | discriminate].
  intros [= <-]. split.
  - now rewrite list_set_length.
  - apply list_set_Forall; [assumption |].
    rewrite list_set_length.
    apply np_index_ok in Ei. destruct Ei as [Ei _].
    rewrite Forall_forall in Hc. apply Hc. now apply nth_In.
Qed.

Lemma setitem_binary (a a' : ndarray) (i j : Z) :
  binary a -> setitem a i j 1 = Ok a' -> binary a'.
Proof.
  intros Hb. unfold setitem.
  destruct (np_index (length a) i) as [i' |] eqn:Ei; [simpl | discriminate].
  destruct (np_index (length (nth i' a [])) j) as [j' |] eqn:Ej;
    [simpl | discriminate].
  intros [= <-].
  apply list_set_Forall; [assumption |].
  apply list_set_Forall; [| now right].
  apply np_index_ok in Ei. destruct Ei as [Ei _].
  unfold binary in Hb. rewrite Forall_forall in Hb. apply Hb.
  now apply nth_In.
Qed.

(** The cell that [setitem] writes holds the value afterwards, and every cell
    that held 1 still does. *)
Lemma setitem_keeps_ones (a a' : ndarray) (i j : Z) (r c : nat) :
  setitem a i j 1 = Ok a' -> cell a r c = 1 -> cell a' r c = 1.
Proof.
  unfold setitem, cell.
  destruct (np_index (length a) i) as [i' |] eqn:Ei; [simpl | discriminate].
  destruct (np_index (length (nth i' a [])) j) as [j' |] eqn:Ej;
    [simpl | discriminate].
  intros [= <-] H.
  apply np_index_ok in Ei. destruct Ei as [Ei _].
  apply np_index_ok in Ej. destruct Ej as [Ej _].
  destruct (Nat.eq_dec i' r) as [-> | Hr].
  - rewrite nth_list_set_same by assumption.
    destruct (Nat.eq_dec j' c) as [-> | Hc].
    + now rewrite nth_list_set_same.
    + now rewrite nth_list_set_other.
  - now rewrite nth_list_set_other.
Qed.


Lemma np_zeros_ok (n_rows n_cols : Z) (a : ndarray) :
  np_zeros n_rows n_cols = Ok a ->
  0 <= n_rows /\ 0 <= n_cols
  /\ has_shape (Z.to_nat n_rows) (Z.to_nat n_cols) a /\ binary a.
Proof.
  unfold np_zeros.
  destruct (n_rows <? 0) eqn:Er; [discriminate |].
  destruct (n_cols <? 0) eqn:Ec; [discriminate |].
  cbn [orb]. intros [= <-].
  apply Z.ltb_ge in Er. apply Z.ltb_ge in Ec.
  repeat split; try assumption.
  - apply repeat_length.
  - apply Forall_forall. intros row Hrow.
    apply repeat_spec in Hrow. subst row. apply repeat_length.
  - apply Forall_forall. intros row Hrow.
    apply repeat_spec in Hrow. subst row.
    apply Forall_forall. intros c Hc. apply repeat_spec in Hc. now left.
Qed.

(** ** Invariants of the contour pass *)

Section ContourInvariant.

(** A property of rasters that every cell assignment of the contour pass
    preserves is preserved by the whole pass. *)
Variables (sres : Q) (buffer : Z) (x_min y_max : Q).
Variable P : ndarray -> Prop.
Hypothesis P_setitem :
  forall a i j a', P a -> setitem a i j 1 = Ok a' -> P a'.

Lemma walk_invariant (fuel : nat) (k : option Q) (y_start y_end x_start y : Q)
      (raster raster' : ndarray) :
  walk sres buffer x_min y_max fuel k y_start y_end x_start y raster
  = Some (Ok raster') ->
  P raster -> P raster'.
Proof.
  revert y raster.
  induction fuel as [| fuel IH]; intros y raster; cbn [walk];
    [discriminate |].
  destruct (Qle_bool EPS (Qabs (y - y_end - sres))).
  - destruct (setitem raster _ _ 1) as [r1 |] eqn:E; [| discriminate].
    intros Hw Hp. apply (IH _ _ Hw). eapply P_setitem; eassumption.
  - intros [= <-]. auto.
Qed.

Lemma while_loop_invariant (k : option Q) (y_start y_end x_start : Q)
      (raster raster' : ndarray) :
  while_loop sres buffer x_min y_max k y_start y_end x_start raster
  = Ok raster' ->
  P raster -> P raster'.
Proof.
  unfold while_loop.
  destruct (walk _ _ _ _ _ _ _ _ _ _ _) as [[r |] |] eqn:E;
    try discriminate.
  intros [= <-]. eapply walk_invariant; eassumption.
Qed.

Lemma draw_edge_invariant (x_1 y_1 x_2 y_2 : Q) (raster raster' : ndarray) :
  draw_edge sres buffer x_min y_max x_1 y_1 x_2 y_2 raster = Ok raster' ->
  P raster -> P raster'.
Proof.
  unfold draw_edge. cbv zeta.
  destruct (Qeq_bool (y_2 - y_1) 0); [intros [= <-]; auto |].
  destruct (Qlt_le_dec y_1 y_2); apply while_loop_invariant.
Qed.

Lemma contour_invariant (xs ys : list Q) (raster raster' : ndarray) :
  contour sres buffer x_min y_max xs ys raster = Ok raster' ->
  P raster -> P raster'.
Proof.
  unfold contour. generalize (seq 1 (length xs - 1)). intros idxs.
  revert raster.
  induction idxs as [| idx idxs IH]; intros raster; cbn [for_each].
  - intros [= <-]. auto.
  - destruct (draw_edge _ _ _ _ _ _ _ _ raster) as [r1 |] eqn:E;
      [cbn [bind] | discriminate].
    intros Hf Hp. apply (IH _ Hf). eapply draw_edge_invariant; eassumption.
Qed.

End ContourInvariant.

(** ** The fill pass *)

Lemma fill_cols_length (s : Z) (row : list Z) :
  length (fill_cols s row) = length row.
Proof.
  revert s. induction row as [| c row IH]; intros s; simpl; auto.
Qed.

Lemma fill_row_length (row : list Z) : length (fill_row row) = length row.
Proof.
  unfold fill_row. destruct (sum row <? 2); auto using fill_cols_length.
Qed.

Lemma fill_shape (r c : nat) (a : ndarray) :
  has_shape r c a -> has_shape r c (fill a).
Proof.
  intros [Hr Hc]. unfold fill. split.
  - now rewrite length_map.
  - apply Forall_map. eapply Forall_impl; [| exact Hc].
    intros row H. cbv beta. now rewrite fill_row_length.
Qed.

(** A cell after the scan is 1 or what it was before. *)
Lemma fill_cols_cell (s : Z) (row : list Z) (j : nat) :
  nth j (fill_cols s row) 0 = 1 \/ nth j (fill_cols s row) 0 = nth j row 0.
Proof.
  revert s j. induction row as [| c row IH]; intros s [| j]; cbn [fill_cols nth];
    auto.
  destruct (truthy (if truthy c then Z.lnot s else s)); auto.
Qed.

Lemma fill_row_keeps_ones (row : list Z) (j : nat) :
  nth j row 0 = 1 -> nth j (fill_row row) 0 = 1.
Proof.
  intros H. unfold fill_row. destruct (sum row <? 2); [assumption |].
  destruct (fill_cols_cell 0 row j) as [E | E]; congruence.
Qed.

Lemma fill_keeps_ones (a : ndarray) (i j : nat) :
  cell a i j = 1 -> cell (fill a) i j = 1.
Proof.
  unfold cell, fill. intros H.
  destruct (Nat.lt_ge_cases i (length a)) as [Hi | Hi].
  - rewrite (nth_indep _ [] (fill_row []))
      by (now rewrite length_map).
    rewrite map_nth. now apply fill_row_keeps_ones.
  - rewrite (nth_overflow a) in H by assumption.
    destruct j; discriminate H.
Qed.

Lemma fill_skips_sparse_rows (a : ndarray) (i : nat) :
  sum (nth i a []) < 2 -> nth i (fill a) [] = nth i a [].
Proof.
  intros H. unfold fill.
  change (@nil Z) with (fill_row []) at 1. rewrite map_nth.
  unfold fill_row. apply Z.ltb_lt in H. now rewrite H.
Qed.

Lemma fill_cols_binary (s : Z) (row : list Z) :
  Forall (fun c => c = 0 \/ c = 1) row ->
  Forall (fun c => c = 0 \/ c = 1) (fill_cols s row).
Proof.
  intros H. revert s.
  induction H as [| c row Hc Hrow IH]; intros s; cbn [fill_cols];
    constructor; auto.
  destruct (truthy (if truthy c then Z.lnot s else s)); auto.
Qed.

Lemma fill_binary (a : ndarray) : binary a -> binary (fill a).
Proof.
  unfold binary, fill. intros H. apply Forall_map.
  eapply Forall_impl; [| exact H].
  intros row Hrow. cbv beta. unfold fill_row.
  destruct (sum row <? 2); auto using fill_cols_binary.
Qed.

(** The toggle of the scan: [~] sends 0 to -1 and -1 to 0, so [is_inner],
    which starts as [False], only ever holds these two values and the scan
    is the even-odd scan. *)
Lemma lnot_toggle (s : Z) :
  s = 0 \/ s = -1 ->
  (Z.lnot s = 0 \/ Z.lnot s = -1) /\ truthy (Z.lnot s) = negb (truthy s).
Proof. intros [-> | ->]; split; auto. Qed.

Lemma fill_cols_is_even_odd (inside : bool) (row : list Z) :
  fill_cols (if inside then -1 else 0) row = fill_cols_even_odd inside row.
Proof.
  revert inside. induction row as [| c row IH]; intros inside;
    cbn [fill_cols fill_cols_even_odd]; [reflexivity |].
  destruct (truthy c).
  - replace (Z.lnot (if inside then -1 else 0))
      with (if negb inside then -1 else 0) by (now destruct inside).
    rewrite IH. now destruct inside.
  - rewrite IH. now destruct inside.
Qed.

Lemma fill_row_is_even_odd (row : list Z) :
  fill_row row = if sum row <? 2 then row else fill_cols_even_odd false row.
Proof.
  unfold fill_row. now rewrite <- (fill_cols_is_even_odd false).
Qed.

(** ** Erosion and cropping keep the cells binary *)

Lemma fold_min_values (l : list Z) :
  Forall (fun v => v = 0 \/ v = 1 \/ v = 255) l ->
  fold_right Z.min 255 l = 0 \/ fold_right Z.min 255 l = 1
  \/ fold_right Z.min 255 l = 255.
Proof.
  induction 1 as [| v l Hv Hl IH]; cbn [fold_right]; [auto |]. lia.
Qed.

Lemma fold_min_le (l : list Z) (v : Z) :
  In v l -> fold_right Z.min 255 l <= v.
Proof.
  induction l as [| w l IH]; cbn [fold_right]; intros []; [subst; lia |].
  specialize (IH H). lia.
Qed.

Lemma pixel_or_border_values (img : ndarray) (r c : Z) :
  binary img ->
  pixel_or_border img r c = 0 \/ pixel_or_border img r c = 1
  \/ pixel_or_border img r c = 255.
Proof.
  intros Hb. unfold pixel_or_border.
  destruct ((r <? 0) || (c <? 0)); [auto |].
  destruct (nth_error img (Z.to_nat r)) as [row |] eqn:E; [| auto].
  apply nth_error_In in E.
  unfold binary in Hb. rewrite Forall_forall in Hb. specialize (Hb _ E).
  destruct (nth_in_or_default (Z.to_nat c) row 255) as [Hin | ->]; [| auto].
  rewrite Forall_forall in Hb. destruct (Hb _ Hin); auto.
Qed.

Lemma pixel_inside_binary (img : ndarray) (r c : nat) :
  binary img -> (r < length img)%nat -> (c < length (nth r img []))%nat ->
  pixel_or_border img (Z.of_nat r) (Z.of_nat c) = 0
  \/ pixel_or_border img (Z.of_nat r) (Z.of_nat c) = 1.
Proof.
  intros Hb Hr Hc. unfold pixel_or_border.
  replace ((Z.of_nat r <? 0) || (Z.of_nat c <? 0)) with false
    by (symmetry; apply orb_false_intro; apply Z.ltb_ge; lia).
  rewrite !Nat2Z.id.
  rewrite (nth_error_nth' img [] Hr).
  unfold binary in Hb. rewrite Forall_forall in Hb.
  specialize (Hb _ (nth_In img [] Hr)).
  rewrite Forall_forall in Hb. apply Hb. now apply nth_In.
Qed.

Lemma erode_pixel_binary (img : ndarray) (r c : nat) :
  binary img -> (r < length img)%nat -> (c < length (nth r img []))%nat ->
  erode_pixel img (Z.of_nat r) (Z.of_nat c) = 0
  \/ erode_pixel img (Z.of_nat r) (Z.of_nat c) = 1.
Proof.
  intros Hb Hr Hc. unfold erode_pixel.
  set (vals := map _ _).
  assert (Hv : Forall (fun v => v = 0 \/ v = 1 \/ v = 255) vals).
  { apply Forall_map. apply Forall_forall. intros d _.
    now apply pixel_or_border_values. }
  assert (Hc0 : In (pixel_or_border img (Z.of_nat r) (Z.of_nat c)) vals).
  { unfold vals. apply in_map_iff. exists (0, 0). split.
    - cbn [fst snd]. now rewrite !Z.add_0_r.
    - cbn. tauto. }
  pose proof (fold_min_le _ _ Hc0) as Hle.
  pose proof (fold_min_values _ Hv) as Hcases.
  destruct (pixel_inside_binary img r c Hb Hr Hc) as [E | E];
    rewrite E in Hle; lia.
Qed.

Lemma erode_once_binary (img : ndarray) : binary img -> binary (erode_once img).
Proof.
  intros Hb. unfold erode_once, binary.
  apply Forall_map. apply Forall_forall. intros r Hr.
  apply in_seq in Hr.
  apply Forall_map. apply Forall_forall. intros c Hc.
  apply in_seq in Hc.
  apply erode_pixel_binary; [assumption | lia | lia].
Qed.

Lemma erode_binary (img : ndarray) (iterations : Z) :
  binary img -> binary (erode img iterations).
Proof.
  intros Hb. unfold erode.
  induction (Z.to_nat iterations) as [| n IH]; cbn [Nat.iter nat_rect];
    [assumption | now apply erode_once_binary].
Qed.

Lemma Forall_firstn {A : Type} (P : A -> Prop) (n : nat) (l : list A) :
  Forall P l -> Forall P (firstn n l).
Proof.
  intros H. revert n. induction H; intros [| n]; cbn [firstn]; auto.
Qed.

Lemma Forall_skipn {A : Type} (P : A -> Prop) (n : nat) (l : list A) :
  Forall P l -> Forall P (skipn n l).
Proof.
  intros H. revert n. induction H; intros [| n]; cbn [skipn]; auto.
Qed.

Lemma slice_both_Forall {A : Type} (P : A -> Prop) (b : nat) (l : list A) :
  Forall P l -> Forall P (slice_both b l).
Proof.
  intros H. unfold slice_both. now apply Forall_firstn, Forall_skipn.
Qed.

Lemma apply_buffer_binary (a : ndarray) (buffer : Z) :
  binary a -> binary (apply_buffer a buffer).
Proof.
  intros Hb. unfold apply_buffer.
  destruct (negb (buffer =? 0)); [| assumption].
  unfold binary. apply Forall_map.
  apply slice_both_Forall.
  eapply Forall_impl; [| exact (erode_binary a buffer Hb)].
  intros row Hrow. now apply slice_both_Forall.
Qed.

(** ** The raster after the contour pass *)

(** What a successful contour pass went through. *)
Lemma edge_flags_inv (points : list (Q * Q)) (sres : Q) (buffer : Z)
      (flags : ndarray) :
  edge_flags points sres buffer = Ok flags ->
  exists x_min x_max y_min y_max raster,
    points <> []
    /\ min (map fst points) = Ok x_min /\ max (map fst points) = Ok x_max
    /\ min (map snd points) = Ok y_min /\ max (map snd points) = Ok y_max
    /\ ~ (sres == 0)%Q
    /\ np_zeros (round ((y_max - y_min) / sres) + 1 + 2 * buffer)
                (round ((x_max - x_min) / sres) + 1 + 2 * buffer) = Ok raster
    /\ contour sres buffer x_min y_max (map fst points) (map snd points) raster
       = Ok flags.
Proof.
  unfold edge_flags. intros H.
  apply bind_ok in H. destruct H as [[xs ys] [Hz H]].
  assert (Hne : points <> []) by (intros ->; discriminate Hz).
  assert (Hxs : xs = map fst points /\ ys = map snd points).
  { destruct points; [congruence |]. cbn [zip_star] in Hz.
    injection Hz as <- <-. auto. }
  destruct Hxs as [-> ->].
  apply bind_ok in H. destruct H as [x_min [Hxmin H]].
  apply bind_ok in H. destruct H as [x_max [Hxmax H]].
  apply bind_ok in H. destruct H as [y_min [Hymin H]].
  apply bind_ok in H. destruct H as [y_max [Hymax H]].
  apply bind_ok in H. destruct H as [rows [Hrows H]].
  apply bind_ok in H. destruct H as [cols [Hcols H]].
  apply bind_ok in H. destruct H as [raster [Hzeros H]].
  apply truediv_inv in Hrows. destruct Hrows as [Hs ->].
  apply truediv_inv in Hcols. destruct Hcols as [_ ->].
  exists x_min, x_max, y_min, y_max, raster. auto 10.
Qed.

Lemma edge_flags_shape_binary (points : list (Q * Q)) (sres : Q) (buffer : Z)
      (flags : ndarray) :
  edge_flags points sres buffer = Ok flags ->
  exists x_min x_max y_min y_max,
    is_min_of x_min (map fst points) /\ is_max_of x_max (map fst points)
    /\ is_min_of y_min (map snd points) /\ is_max_of y_max (map snd points)
    /\ 0 <= round ((y_max - y_min) / sres) + 1 + 2 * buffer
    /\ 0 <= round ((x_max - x_min) / sres) + 1 + 2 * buffer
    /\ has_shape (Z.to_nat (round ((y_max - y_min) / sres) + 1 + 2 * buffer))
                 (Z.to_nat (round ((x_max - x_min) / sres) + 1 + 2 * buffer))
                 flags
    /\ binary flags.
Proof.
  intros H. apply edge_flags_inv in H.
  destruct H as (x_min & x_max & y_min & y_max & raster & _ & Hxmin & Hxmax
                 & Hymin & Hymax & _ & Hzeros & Hcontour).
  apply np_zeros_ok in Hzeros. destruct Hzeros as (Hr & Hc & Hshape & Hbin).
  pose proof (contour_invariant sres buffer x_min y_max (has_shape _ _)
                (fun a i j a' Ha E => setitem_shape _ _ a a' i j 1 Ha E)
                _ _ _ _ Hcontour Hshape) as Hshape'.
  pose proof (contour_invariant sres buffer x_min y_max binary
                (fun a i j a' Ha E => setitem_binary a a' i j Ha E)
                _ _ _ _ Hcontour Hbin) as Hbin'.
  exists x_min, x_max, y_min, y_max.
  split; [now apply min_is_min |]. split; [now apply max_is_max |].
  split; [now apply min_is_min |]. split; [now apply max_is_max |].
  auto.
Qed.

(** ** The edges of the contour pass *)

Lemma for_each_ext (idxs : list nat) (body body' : nat -> ndarray -> result ndarray)
      (raster : ndarray) :
  (forall idx r, In idx idxs -> body idx r = body' idx r) ->
  for_each idxs body raster = for_each idxs body' raster.
Proof.
  revert raster. induction idxs as [| idx idxs IH]; intros raster H;
    cbn [for_each]; [reflexivity |].
  rewrite (H idx raster (or_introl eq_refl)).
  destruct (body' idx raster) as [r1 |]; cbn [bind]; [| reflexivity].
  apply IH. intros i r Hi. apply H. now right.
Qed.

Lemma for_each_map (f : nat -> nat) (idxs : list nat)
      (body : nat -> ndarray -> result ndarray) (raster : ndarray) :
  for_each (map f idxs) body raster
  = for_each idxs (fun idx => body (f idx)) raster.
Proof.
  revert raster. induction idxs as [| idx idxs IH]; intros raster;
    cbn [for_each map]; [reflexivity |].
  destruct (body (f idx) raster) as [r1 |]; cbn [bind]; auto.
Qed.

(** The index loop of the contour pass visits the pairs (idx - 1, idx) for
    idx = 1 .. len - 1: exactly the consecutive pairs, in order. *)
Lemma contour_consecutive_pairs (sres : Q) (buffer : Z) (x_min y_max : Q)
      (points : list (Q * Q)) (raster : ndarray) :
  contour sres buffer x_min y_max (map fst points) (map snd points) raster
  = draw_edges sres buffer x_min y_max (consecutive_pairs points) raster.
Proof.
  unfold contour. rewrite length_map.
  revert raster. induction points as [| p rest IH]; intros raster;
    [reflexivity |].
  destruct rest as [| q rest]; [reflexivity |].
  cbn [length Nat.sub] in IH |- *. rewrite Nat.sub_0_r in IH.
  cbn [seq for_each consecutive_pairs draw_edges].
  change (nth (1 - 1) (map fst (p :: q :: rest)) 0%Q) with (fst p).
  change (nth (1 - 1) (map snd (p :: q :: rest)) 0%Q) with (snd p).
  change (nth 1 (map fst (p :: q :: rest)) 0%Q) with (fst q).
  change (nth 1 (map snd (p :: q :: rest)) 0%Q) with (snd q).
  destruct (draw_edge sres buffer x_min y_max (fst p) (snd p) (fst q) (snd q)
                      raster) as [r1 |]; cbn [bind]; [| reflexivity].
  rewrite <- IH.
  rewrite <- seq_shift, for_each_map.
  apply for_each_ext. intros idx r Hidx.
  apply in_seq in Hidx.
  destruct idx as [| idx]; [lia |].
  cbn [Nat.sub map nth]. rewrite Nat.sub_0_r. reflexivity.
Qed.

Lemma consecutive_pairs_length (points : list (Q * Q)) :
  length (consecutive_pairs points) = (length points - 1)%nat.
Proof.
  induction points as [| p [| q rest] IH]; try reflexivity.
  cbn [consecutive_pairs length] in *. rewrite IH. lia.
Qed.

Lemma consecutive_pairs_nth (points : list (Q * Q)) (k : nat) (d : Q * Q) :
  (S k < length points)%nat ->
  nth k (consecutive_pairs points) (d, d)
  = (nth k points d, nth (S k) points d).
Proof.
  revert k. induction points as [| p [| q rest] IH]; intros k H;
    cbn [length] in H; try lia.
  destruct k as [| k]; [reflexivity |].
  cbn [consecutive_pairs nth] in *. apply IH. cbn [length]. lia.
Qed.

Lemma consecutive_pairs_snoc (p first d : Q * Q) (rest : list (Q * Q)) :
  consecutive_pairs ((p :: rest) ++ [first])
  = consecutive_pairs (p :: rest) ++ [(last (p :: rest) d, first)].
Proof.
  revert p. induction rest as [| q rest IH]; intros p; [reflexivity |].
  change (consecutive_pairs ((p :: q :: rest) ++ [first]))
    with ((p, q) :: consecutive_pairs ((q :: rest) ++ [first])).
  rewrite IH. reflexivity.
Qed.

Lemma consecutive_pairs_In (points : list (Q * Q)) (p q : Q * Q) :
  In (p, q) (consecutive_pairs points) -> In p points /\ In q points.
Proof.
  induction points as [| v [| w rest] IH]; cbn [consecutive_pairs];
    try contradiction.
  intros [[= <- <-] | H].
  - split; [now left | right; now left].
  - destruct (IH H). split; now right.
Qed.

(** ** The walk along an edge ends *)

(** After [n] steps of size [sres] the quotient [abs(y - y_max) / sres] has
    moved at least [n] minus its first value away from zero: upwards for a
    positive resolution, downwards for a negative one. *)
Lemma quotient_after_steps (s a b u0 un d0 dn nq : Q) :
  (u0 * s == a)%Q -> (un * s == b)%Q -> (0 <= a)%Q ->
  (a == d0 \/ a == - d0)%Q -> (dn <= b /\ - dn <= b)%Q ->
  (dn == d0 + nq * s)%Q -> (0 <= nq)%Q ->
  ((0 < s)%Q -> (nq - u0 <= un)%Q) /\ ((s < 0)%Q -> (un <= - nq - u0)%Q).
Proof.
  intros H0 Hn Hpos Ha Hb Hd Hq.
  split; intros Hsign; destruct Ha as [Ha | Ha]; nra.
Qed.

Lemma abs_quotient_after_steps (s y0 y y_max nq : Q) :
  ~ (s == 0)%Q -> (0 <= nq)%Q -> (y == y0 + nq * s)%Q ->
  ((0 < s)%Q -> (nq - Qabs (y0 - y_max) / s <= Qabs (y - y_max) / s)%Q)
  /\ ((s < 0)%Q -> (Qabs (y - y_max) / s <= - nq - Qabs (y0 - y_max) / s)%Q).
Proof.
  intros Hs Hn Hy.
  apply (quotient_after_steps s (Qabs (y0 - y_max)) (Qabs (y - y_max)) _ _
           (y0 - y_max) (y - y_max) nq)%Q.
  - field. exact Hs.
  - field. exact Hs.
  - apply Qabs_nonneg.
  - apply Qabs_case; intros _; [left | right]; reflexivity.
  - apply Qabs_case; intros H; split; lra.
  - rewrite Hy. ring.
  - exact Hn.
Qed.

Lemma row_index_leaves_array (sres : Q) (buffer : Z) (y_max y0 y : Q)
      (rows n : nat) :
  ~ (sres == 0)%Q ->
  (rows + Z.abs_nat buffer + Z.abs_nat (row_index sres buffer y_max y0 - buffer)
   + 2 <= n)%nat ->
  (y == y0 + inject_Z (Z.of_nat n) * sres)%Q ->
  row_index sres buffer y_max y < - Z.of_nat rows
  \/ Z.of_nat rows <= row_index sres buffer y_max y.
Proof.
  intros Hs Hn Hy. unfold row_index in *.
  replace (round (Qabs (y0 - y_max) / sres) + buffer - buffer)
    with (round (Qabs (y0 - y_max) / sres)) in Hn by lia.
  assert (Hnq : (0 <= inject_Z (Z.of_nat n))%Q)
    by (rewrite <- (Zle_Qle 0); lia).
  destruct (abs_quotient_after_steps sres y0 y y_max _ Hs Hnq Hy)
    as [Hpos Hneg].
  pose proof (round_bounds (Qabs (y0 - y_max) / sres)) as B0.
  pose proof (round_bounds (Qabs (y - y_max) / sres)) as Bn.
  set (r0 := round (Qabs (y0 - y_max) / sres)) in *.
  set (rn := round (Qabs (y - y_max) / sres)) in *.
  destruct (Q_dec sres 0) as [[Hlt | Hgt] | Heq]; [| | contradiction].
  - left. specialize (Hneg Hlt).
    assert (H : (inject_Z rn <= inject_Z (- Z.of_nat n - r0 + 1))%Q).
    { rewrite inject_Z_plus, <- !Z.add_opp_r, inject_Z_plus, !inject_Z_opp.
      change (inject_Z 1) with 1%Q. lra. }
    rewrite <- Zle_Qle in H. lia.
  - right. specialize (Hpos Hgt).
    assert (H : (inject_Z (Z.of_nat n - r0 - 1) <= inject_Z rn)%Q).
    { rewrite <- !Z.add_opp_r, !inject_Z_plus, !inject_Z_opp.
      change (inject_Z 1) with 1%Q. lra. }
    rewrite <- Zle_Qle in H. lia.
Qed.

Section WalkEnds.

Variables (sres : Q) (buffer : Z) (x_min y_max : Q).
Hypothesis sres_nonzero : ~ (sres == 0)%Q.
Variables (k : option Q) (y_start y_end x_start : Q).

Lemma walk_S (fuel : nat) (y : Q) (raster : ndarray) :
  walk sres buffer x_min y_max (S fuel) k y_start y_end x_start y raster
  = if Qle_bool EPS (Qabs (y - y_end - sres)) then
      match setitem raster (row_index sres buffer y_max y)
              (col_index sres buffer x_min
                 match k with
                 | Some k => ((y - y_start) / k + x_start)%Q
                 | None => x_start
                 end) 1 with
      | Ok raster' =>
          walk sres buffer x_min y_max fuel k y_start y_end x_start
               (y + sres)%Q raster'
      | Raise e => Some (Raise e)
      end
    else Some (Ok raster).
Proof. reflexivity. Qed.

(** More fuel does not change the outcome of a walk that ended. *)
Lemma walk_more_fuel (fuel : nat) (y : Q) (raster : ndarray)
      (r : result ndarray) :
  walk sres buffer x_min y_max fuel k y_start y_end x_start y raster = Some r ->
  walk sres buffer x_min y_max (S fuel) k y_start y_end x_start y raster
  = Some r.
Proof.
  revert y raster. induction fuel as [| fuel IH]; intros y raster;
    [discriminate |].
  rewrite (walk_S (S fuel)), (walk_S fuel).
  destruct (Qle_bool EPS (Qabs (y - y_end - sres))); [| auto].
  destruct (setitem raster _ _ 1) as [r1 |]; [| auto].
  apply IH.
Qed.

Lemma walk_ends_from (rows : nat) (fuel n : nat) (y : Q) (raster : ndarray) :
  length raster = rows ->
  (y == y_start + inject_Z (Z.of_nat n) * sres)%Q ->
  (1 <= fuel)%nat ->
  (rows + Z.abs_nat buffer
   + Z.abs_nat (row_index sres buffer y_max y_start - buffer) + 3
   <= fuel + n)%nat ->
  exists r,
    walk sres buffer x_min y_max fuel k y_start y_end x_start y raster
    = Some r.
Proof.
  revert n y raster.
  induction fuel as [| fuel IH]; intros n y raster Hlen Hy Hfuel Hbound;
    [lia |].
  rewrite walk_S.
  destruct (Qle_bool EPS (Qabs (y - y_end - sres))); [| eauto].
  destruct (setitem raster _ _ 1) as [r1 | e] eqn:E; [| eauto].
  assert (Hn : (n < rows + Z.abs_nat buffer
                    + Z.abs_nat (row_index sres buffer y_max y_start - buffer)
                    + 2)%nat).
  { apply Nat.nle_gt. intros Hge.
    pose proof (row_index_leaves_array sres buffer y_max y_start y rows n
                  sres_nonzero Hge Hy) as Hout.
    rewrite <- Hlen in Hout.
    rewrite (setitem_row_raises _ _ _ _ Hout) in E. discriminate E. }
  apply (IH (S n)).
  - rewrite (setitem_length _ _ _ _ _ E). exact Hlen.
  - rewrite Hy, Nat2Z.inj_succ, <- Z.add_1_r, inject_Z_plus.
    change (inject_Z 1) with 1%Q. ring.
  - lia.
  - lia.
Qed.

(** The fuel that [while_loop] supplies is enough: the loop has ended, and
    any larger fuel gives the same outcome. *)
Lemma walk_fuel_enough (raster : ndarray) (fuel : nat) :
  (walk_fuel sres buffer y_max y_start raster <= fuel)%nat ->
  walk sres buffer x_min y_max fuel k y_start y_end x_start y_start raster
  = Some (while_loop sres buffer x_min y_max k y_start y_end x_start raster).
Proof.
  intros Hfuel. unfold while_loop.
  destruct (walk_ends_from (length raster)
              (walk_fuel sres buffer y_max y_start raster) 0 y_start raster)
    as [r Hr].
  - reflexivity.
  - change (inject_Z (Z.of_nat 0)) with 0%Q. ring.
  - unfold walk_fuel. lia.
  - unfold walk_fuel. lia.
  - rewrite Hr.
    induction Hfuel as [| fuel Hfuel IH]; [exact Hr |].
    now apply walk_more_fuel.
Qed.

End WalkEnds.




(** A walk that returns a raster met its stop test after some number of
    steps; a walk that raises, raises [IndexError]. *)
Lemma walk_ok_meets_stop_test (sres : Q) (buffer : Z) (x_min y_max : Q)
      (k : option Q) (y_start y_end x_start : Q) (fuel : nat) (y : Q)
      (raster raster' : ndarray) :
  walk sres buffer x_min y_max fuel k y_start y_end x_start y raster
  = Some (Ok raster') ->
  exists n : nat,
    (Qabs (y + inject_Z (Z.of_nat n) * sres - y_end - sres) < EPS)%Q.
Proof.
  revert y raster. induction fuel as [| fuel IH]; intros y raster;
    [discriminate |].
  rewrite walk_S.
  destruct (Qle_bool EPS (Qabs (y - y_end - sres))) eqn:T.
  - destruct (setitem raster _ _ 1) as [r1 |]; [| discriminate].
    intros H. destruct (IH _ _ H) as [n Hn]. exists (S n).
    rewrite Nat2Z.inj_succ, <- Z.add_1_r, inject_Z_plus.
    change (inject_Z 1) with 1%Q.
    setoid_replace (y + (inject_Z (Z.of_nat n) + 1) * sres - y_end - sres)%Q
      with (y + sres + inject_Z (Z.of_nat n) * sres - y_end - sres)%Q
      by ring.
    exact Hn.
  - intros _. exists 0%nat. change (inject_Z (Z.of_nat 0)) with 0%Q.
    setoid_replace (y + 0 * sres - y_end - sres)%Q with (y - y_end - sres)%Q
      by ring.
    apply Qnot_le_lt. intros Hle. apply Qle_bool_iff in Hle. congruence.
Qed.

Lemma setitem_raises_index_error (a : ndarray) (i j v : Z) (e : exception) :
  setitem a i j v = Raise e -> e = IndexError.
Proof.
  unfold setitem, np_index.
  destruct ((i <? - Z.of_nat (length a)) || (Z.of_nat (length a) <=? i));
    cbn [bind]; [congruence |].
  destruct ((j <? - Z.of_nat _) || (Z.of_nat _ <=? j)); cbn [bind];
    [congruence | discriminate].
Qed.

Lemma walk_raises_index_error (sres : Q) (buffer : Z) (x_min y_max : Q)
      (k : option Q) (y_start y_end x_start : Q) (fuel : nat) (y : Q)
      (raster : ndarray) (e : exception) :
  walk sres buffer x_min y_max fuel k y_start y_end x_start y raster
  = Some (Raise e) ->
  e = IndexError.
Proof.
  revert y raster. induction fuel as [| fuel IH]; intros y raster;
    [discriminate |].
  rewrite walk_S.
  destruct (Qle_bool EPS (Qabs (y - y_end - sres))); [| discriminate].
  destruct (setitem raster _ _ 1) as [r1 | e1] eqn:E; [apply IH |].
  intros [= <-]. eapply setitem_raises_index_error; eassumption.
Qed.

(** An edge whose height is at no step within [EPS] of the distance walked
    is never left by the stop test: the loop ends with [IndexError]. *)
Lemma while_loop_off_grid (sres : Q) (buffer : Z) (x_min y_max : Q)
      (k : option Q) (y_start y_end x_start : Q) (raster : ndarray) :
  ~ (sres == 0)%Q ->
  (forall n : nat,
      (EPS <= Qabs (y_start + inject_Z (Z.of_nat n) * sres - y_end - sres))%Q) ->
  while_loop sres buffer x_min y_max k y_start y_end x_start raster
  = Raise IndexError.
Proof.
  intros Hs Hoff.
  pose proof (walk_fuel_enough sres buffer x_min y_max Hs k y_start y_end
                x_start raster _ (Nat.le_refl _)) as Hw.
  destruct (while_loop sres buffer x_min y_max k y_start y_end x_start raster)
    as [r | e].
  - exfalso. apply walk_ok_meets_stop_test in Hw. destruct Hw as [n Hn].
    specialize (Hoff n). lra.
  - apply walk_raises_index_error in Hw. now subst e.
Qed.

(** ** Rings on the grid are rasterised *)



Section OnGrid.

Variables (sres : Q) (buffer : Z) (x_min x_max y_min y_max : Q).
Hypothesis sres_pos : (0 < sres)%Q.
Hypothesis buffer_nonneg : 0 <= buffer.


End OnGrid.

Section EdgesOnGrid.

Variables (sres : Q) (buffer : Z) (x_min x_max y_min y_max : Q).
Hypothesis sres_pos : (0 < sres)%Q.
Hypothesis buffer_nonneg : 0 <= buffer.



End EdgesOnGrid.

(** At a positive resolution the contour pass of a non-empty ring starts
    from a raster of the shape of the bounding box and walks the consecutive
    pairs of vertices, all of which lie in the box. *)
Lemma edge_flags_positive_resolution (points : list (Q * Q)) (sres : Q)
      (buffer : Z) :
  (0 < sres)%Q -> 0 <= buffer -> points <> [] ->
  exists x_min x_max y_min y_max raster,
    (forall p, In p points -> in_box x_min x_max y_min y_max p)
    /\ grid_shape sres buffer x_min x_max y_min y_max raster
    /\ edge_flags points sres buffer
       = draw_edges sres buffer x_min y_max (consecutive_pairs points) raster.
Proof.
  intros Hs Hb Hne.
  unfold edge_flags.
  destruct points as [| v rest]; [congruence |].
  cbn [zip_star bind].
  destruct (min (map fst (v :: rest))) as [x_min |] eqn:Exmin;
    [| discriminate Exmin].
  destruct (max (map fst (v :: rest))) as [x_max |] eqn:Exmax;
    [| discriminate Exmax].
  destruct (min (map snd (v :: rest))) as [y_min |] eqn:Eymin;
    [| discriminate Eymin].
  destruct (max (map snd (v :: rest))) as [y_max |] eqn:Eymax;
    [| discriminate Eymax].
  cbn [bind].
  apply min_is_min in Exmin, Eymin. apply max_is_max in Exmax, Eymax.
  assert (Hbox : forall p, In p (v :: rest) ->
                           in_box x_min x_max y_min y_max p).
  { intros p Hp. split; split;
      [apply Exmin | apply Exmax | apply Eymin | apply Eymax];
      now apply in_map. }
  assert (Hs0 : ~ (sres == 0)%Q) by lra.
  rewrite !(truediv_ok _ _ Hs0). cbn [bind].
  destruct (Hbox v (or_introl eq_refl)) as [Hvx Hvy].
  assert (Hrows : 0 <= round ((y_max - y_min) / sres)).
  { apply round_nonneg. apply Qle_shift_div_l; lra. }
  assert (Hcols : 0 <= round ((x_max - x_min) / sres)).
  { apply round_nonneg. apply Qle_shift_div_l; lra. }
  destruct (np_zeros (round ((y_max - y_min) / sres) + 1 + 2 * buffer)
                     (round ((x_max - x_min) / sres) + 1 + 2 * buffer))
    as [raster |] eqn:Ez.
  2:{ unfold np_zeros in Ez.
      replace (_ <? 0) with false in Ez by (symmetry; apply Z.ltb_ge; lia).
      replace (_ <? 0) with false in Ez by (symmetry; apply Z.ltb_ge; lia).
      discriminate Ez. }
  cbn [bind]. apply np_zeros_ok in Ez.
  destruct Ez as (_ & _ & Hshape & _).
  exists x_min, x_max, y_min, y_max, raster.
  split; [exact Hbox |]. split; [exact Hshape |].
  apply contour_consecutive_pairs.
Qed.



(** ** Rings off the grid are not *)

Lemma draw_edge_off_grid (sres : Q) (buffer : Z) (x_min y_max : Q)
      (x_1 y_1 x_2 y_2 : Q) (raster : ndarray) :
  ~ (sres == 0)%Q -> ~ (y_2 - y_1 == 0)%Q ->
  (forall n : nat,
      (EPS <= Qabs (inject_Z (Z.of_nat n) * sres - Qabs (y_2 - y_1) - sres))%Q) ->
  draw_edge sres buffer x_min y_max x_1 y_1 x_2 y_2 raster = Raise IndexError.
Proof.
  intros Hs Hy Hoff. unfold draw_edge. cbv zeta.
  destruct (Qeq_bool (y_2 - y_1) 0) eqn:Ey;
    [apply Qeq_bool_eq in Ey; contradiction |].
  destruct (Qlt_le_dec y_1 y_2) as [Hlt | Hge];
    apply while_loop_off_grid; try assumption; intros n;
    specialize (Hoff n).
  - rewrite (Qabs_pos (y_2 - y_1)) in Hoff by lra.
    setoid_replace (y_1 + inject_Z (Z.of_nat n) * sres - y_2 - sres)%Q
      with (inject_Z (Z.of_nat n) * sres - (y_2 - y_1) - sres)%Q by ring.
    exact Hoff.
  - rewrite (Qabs_neg (y_2 - y_1)) in Hoff by lra.
    setoid_replace (y_2 + inject_Z (Z.of_nat n) * sres - y_1 - sres)%Q
      with (inject_Z (Z.of_nat n) * sres - - (y_2 - y_1) - sres)%Q by ring.
    exact Hoff.
Qed.

Lemma draw_edge_raises_index_error (sres : Q) (buffer : Z) (x_min y_max : Q)
      (x_1 y_1 x_2 y_2 : Q) (raster : ndarray) (e : exception) :
  ~ (sres == 0)%Q ->
  draw_edge sres buffer x_min y_max x_1 y_1 x_2 y_2 raster = Raise e ->
  e = IndexError.
Proof.
  intros Hs. unfold draw_edge. cbv zeta.
  destruct (Qeq_bool (y_2 - y_1) 0); [discriminate |].
  destruct (Qlt_le_dec y_1 y_2); intros H;
    match type of H with
    | while_loop _ _ _ _ ?k ?ys ?ye ?xs _ = _ =>
        pose proof (walk_fuel_enough sres buffer x_min y_max Hs k ys ye xs
                      raster _ (Nat.le_refl _)) as Hw
    end;
    rewrite H in Hw; eapply walk_raises_index_error; exact Hw.
Qed.

Lemma draw_edges_off_grid (sres : Q) (buffer : Z) (x_min y_max : Q)
      (edges : list ((Q * Q) * (Q * Q))) (p q : Q * Q) (raster : ndarray) :
  ~ (sres == 0)%Q -> In (p, q) edges -> ~ (snd q - snd p == 0)%Q ->
  (forall n : nat,
      (EPS <= Qabs (inject_Z (Z.of_nat n) * sres - Qabs (snd q - snd p)
                    - sres))%Q) ->
  draw_edges sres buffer x_min y_max edges raster = Raise IndexError.
Proof.
  intros Hs Hin Hy Hoff. revert raster.
  induction edges as [| [v w] edges IH]; intros raster; [contradiction |].
  cbn [draw_edges].
  destruct Hin as [[= -> ->] | Hin].
  - rewrite draw_edge_off_grid by assumption. reflexivity.
  - destruct (draw_edge sres buffer x_min y_max (fst v) (snd v) (fst w) (snd w)
                        raster) as [r1 | e] eqn:E; cbn [bind].
    + now apply IH.
    + f_equal. eapply draw_edge_raises_index_error; [exact Hs | exact E].
Qed.

(** At a positive resolution a ring with an edge whose height stays at least
    [EPS] away from every whole number of steps is not rasterised: the call
    ends with [IndexError]. *)
Lemma rasterise_off_grid_raises (points : list (Q * Q)) (sres : Q)
      (buffer : Z) (p q : Q * Q) :
  (0 < sres)%Q -> In (p, q) (consecutive_pairs points) ->
  ~ (snd q - snd p == 0)%Q ->
  (forall n : nat,
      (EPS <= Qabs (inject_Z (Z.of_nat n) * sres - Qabs (snd q - snd p)
                    - sres))%Q) ->
  rasterise_polygon points sres buffer = Raise IndexError.
Proof.
  intros Hs Hin Hy Hoff.
  assert (Hne : points <> []) by (intros ->; contradiction).
  destruct (edge_flags_positive_resolution points sres (Z.abs buffer) Hs
              (Z.abs_nonneg buffer) Hne)
    as (x_min & x_max & y_min & y_max & raster & _ & _ & E).
  unfold rasterise_polygon, filled_raster. rewrite E.
  rewrite (draw_edges_off_grid sres (Z.abs buffer) x_min y_max _ p q raster);
    try assumption; [reflexivity | lra].
Qed.

(** ** Geotransforms: anchors and the rotation angle *)

Lemma dict_get_px_shift_unknown (origin : string) :
  ~ In origin ["ul"; "ur"; "lr"; "ll"; "c"]%string ->
  dict_get px_shift_map origin = None.
Proof.
  intros H. unfold px_shift_map, dict_get.
  repeat match goal with
         | |- context [String.eqb origin ?k] =>
             destruct (String.eqb_spec origin k) as [-> | _];
             [exfalso; apply H; simpl; tauto |]
         end.
  reflexivity.
Qed.

(** The five known anchors do return a coordinate. *)
Lemma ij2xy_known_origin (i j : Q) (gt : geotransform) (origin : string) :
  In origin ["ul"; "ur"; "lr"; "ll"; "c"]%string ->
  exists xy, ij2xy i j gt origin = Ok xy.
Proof.
  simpl. intros [H | [H | [H | [H | [H | []]]]]]; subst origin;
    eexists; reflexivity.
Qed.

(** With [deg] set the code converts to radians first and rounds the result,
    so the angle it uses is a whole number of radians; without [deg] the
    angle is used as given. *)
Lemma construct_geotransform_deg (cos sin : Q -> Q) (origin : Q * Q) (rot : Q)
      (px : Q * Q) :
  construct_geotransform cos sin origin rot px true
  = construct_geotransform cos sin origin
      (inject_Z (round (rot * degToRad))) px false.
Proof. reflexivity. Qed.

Lemma construct_geotransform_rad (cos sin : Q -> Q) (origin : Q * Q) (alpha : Q)
      (x_ps y_ps : Q) :
  construct_geotransform cos sin origin alpha (x_ps, y_ps) false
  = GT (fst origin) (cos alpha * x_ps)%Q (- sin alpha * x_ps)%Q
       (snd origin) (sin alpha * y_ps)%Q (cos alpha * y_ps)%Q.
Proof. reflexivity. Qed.


(** ** The statements of the specification *)

(** C1: rasterising the closed ring (0,0),(2,0),(2,2),(0,2),(0,0) with
    resolution 1 and buffer 0 returns a 3x3 mask whose cells are all 1. *)
Theorem rasterise_unit_square :
  rasterise_polygon unit_square_ring 1 0
  = Ok [[1; 1; 1]; [1; 1; 1]; [1; 1; 1]].
Proof. vm_compute. reflexivity. Qed.



(** On the edge from (0,0) to (0,3) walked in steps of 2 the heights are
    0, 2, 4, ...; the loop would stop at height 5 only. *)
Lemma stop_test_never_met (n : nat) :
  Qle_bool EPS (Qabs (0 + inject_Z (Z.of_nat n) * 2 - 3 - 2)) = true.
Proof.
  apply Qle_bool_iff.
  assert (H : (1 <= Qabs (0 + inject_Z (Z.of_nat n) * 2 - 3 - 2))%Q).
  { destruct (Nat.le_gt_cases n 2) as [Hn | Hn].
    - assert (Hq : (inject_Z (Z.of_nat n) <= 2)%Q)
        by (rewrite <- (Zle_Qle _ 2); lia).
      rewrite Qabs_neg by lra. lra.
    - assert (Hq : (3 <= inject_Z (Z.of_nat n))%Q)
        by (rewrite <- (Zle_Qle 3); lia).
      rewrite Qabs_pos by lra. lra. }
  unfold EPS. lra.
Qed.

(** C3: for the triangle (0,0),(0,3),(3,0),(0,0) at resolution 2 the first
    edge has height 3; the stop test of its walk holds at no step, the walk
    runs past the upper end of the edge and the call ends with [IndexError]
    when the row index leaves the raster: no mask is returned. *)
Theorem rasterise_odd_height_raises :
  rasterise_polygon odd_height_triangle 2 0 = Raise IndexError
  /\ forall n : nat,
      Qle_bool EPS (Qabs (0 + inject_Z (Z.of_nat n) * 2 - 3 - 2)) = true.
Proof.
  split; [vm_compute; reflexivity | exact stop_test_never_met].
Qed.

(** C4: with [deg] set, the angle is converted to radians first and the
    radians are rounded, not the degrees: at 90 degrees cosine and sine are
    taken of the angle 2, the rounded value of 1.5707..., whereas the radians
    of the rounded angle, 90 degrees, stay below 2. *)
Theorem construct_geotransform_90_degrees (cos sin : Q -> Q) :
  construct_geotransform cos sin (0, 0)%Q 90 (1, 1)%Q true
  = GT 0 (cos 2 * 1)%Q (- sin 2 * 1)%Q 0 (sin 2 * 1)%Q (cos 2 * 1)%Q
  /\ (radians (inject_Z (round 90)) < 2)%Q
  /\ inject_Z (round (radians 90)) = 2%Q.
Proof.
  split; [reflexivity |].
  split; [vm_compute; reflexivity | reflexivity].
Qed.



(** C6: the contour pass takes its edges between consecutive vertices only,
    from index 1 on: the mask is that of the open polyline through the
    vertices.  The segment from the last vertex back to the first is among
    the edges only when the ring is closed explicitly, by repeating the
    first vertex at the end. *)
Theorem rasterise_is_open_polyline (points : list (Q * Q)) (sres : Q)
        (buffer : Z) :
  rasterise_polygon points sres buffer = rasterise_polyline points sres buffer
  /\ length (consecutive_pairs points) = (length points - 1)%nat
  /\ forall first rest,
       points = first :: rest ->
       consecutive_pairs (points ++ [first])
       = consecutive_pairs points ++ [(last points first, first)].
Proof.
  split; [| split].
  - unfold rasterise_polygon, rasterise_polyline, filled_raster, edge_flags.
    destruct points as [| v points]; [reflexivity |].
    cbn [zip_star bind].
    destruct (min (map fst (v :: points))) as [x_min |]; [| reflexivity].
    destruct (max (map fst (v :: points))) as [x_max |]; [| reflexivity].
    destruct (min (map snd (v :: points))) as [y_min |]; [| reflexivity].
    destruct (max (map snd (v :: points))) as [y_max |]; [| reflexivity].
    cbn [bind].
    destruct (truediv (y_max - y_min) sres) as [rows |]; [| reflexivity].
    destruct (truediv (x_max - x_min) sres) as [cols |]; [| reflexivity].
    cbn [bind].
    destruct (np_zeros _ _) as [raster |]; [| reflexivity].
    cbn [bind].
    rewrite contour_consecutive_pairs.
    destruct (draw_edges _ _ _ _ _ raster); reflexivity.
  - apply consecutive_pairs_length.
  - intros first rest ->. apply consecutive_pairs_snoc.
Qed.

(** The square of the concrete scenario without its closing vertex: the left
    edge, from (0,2) back to (0,0), is not walked, no row has two flagged
    cells, and nothing is filled. *)
Example rasterise_open_square :
  rasterise_polygon [(0, 0); (2, 0); (2, 2); (0, 2)]%Q 1 0
  = Ok [[0; 0; 1]; [0; 0; 1]; [0; 0; 1]].
Proof. vm_compute. reflexivity. Qed.




(** C8: for an origin that is none of "ul", "ur", "lr", "ll", "c", [ij2xy]
    raises (the exception is Python's [Warning], carrying the message) and
    returns no coordinate; it does not continue with the shift (0, 0). *)
Theorem ij2xy_unknown_origin (i j : Q) (gt : geotransform) (origin : string) :
  ~ In origin ["ul"; "ur"; "lr"; "ll"; "c"]%string ->
  ij2xy i j gt origin = Raise (Warning (user_wrng origin))
  /\ forall xy, ij2xy i j gt origin <> Ok xy.
Proof.
  intros H. unfold ij2xy.
  rewrite (dict_get_px_shift_unknown origin H). simpl.
  split; [reflexivity | discriminate].
Qed.

Lemma ij2xy_unknown_origin_witness :
  ij2xy 1 1 (GT 100 10 0 200 0 10) "center"
  = Raise (Warning (user_wrng "center"))
  /\ forall xy, ij2xy 1 1 (GT 100 10 0 200 0 10) "center" <> Ok xy.
Proof.
  apply (ij2xy_unknown_origin 1 1 (GT 100 10 0 200 0 10) "center").
  simpl. intros [H | [H | [H | [H | [H | []]]]]]; discriminate H.
Defined.

(** C9: the sign of the buffer is discarded at entry: a buffer [b], its
    absolute value and its opposite give the same result, mask or
    exception. *)
Theorem rasterise_buffer_sign (points : list (Q * Q)) (sres : Q) (b : Z) :
  rasterise_polygon points sres b = rasterise_polygon points sres (Z.abs b)
  /\ rasterise_polygon points sres b = rasterise_polygon points sres (- b).
Proof.
  unfold rasterise_polygon.
  now rewrite Z.abs_idemp, Z.abs_opp.
Qed.

(** C10: every cell of a returned mask is 0 or 1; with buffer 0 the mask is
    the filled contour raster, in which every cell flagged by the contour
    pass is still 1 and every row with fewer than two flagged cells is the
    row of flags unchanged. *)
Theorem rasterise_binary_fill_monotone (points : list (Q * Q)) (sres : Q)
        (buffer : Z) :
  (forall m, rasterise_polygon points sres buffer = Ok m -> binary m)
  /\ (forall flags,
        edge_flags points sres 0 = Ok flags ->
        rasterise_polygon points sres 0 = Ok (fill flags)
        /\ (forall i j, cell flags i j = 1 -> cell (fill flags) i j = 1)
        /\ (forall i, sum (nth i flags []) < 2 ->
                      nth i (fill flags) [] = nth i flags [])).
Proof.
  split.
  - intros m. unfold rasterise_polygon, filled_raster. intros H.
    apply bind_ok in H. destruct H as [filled [H [= <-]]].
    apply bind_ok in H. destruct H as [flags [H [= <-]]].
    apply edge_flags_shape_binary in H.
    destruct H as (_ & _ & _ & _ & _ & _ & _ & _ & _ & _ & _ & Hbin).
    now apply apply_buffer_binary, fill_binary.
  - intros flags H. split; [| split].
    + unfold rasterise_polygon, filled_raster. cbn [Z.abs].
      rewrite H. reflexivity.
    + intros i j. apply fill_keeps_ones.
    + intros i. apply fill_skips_sparse_rows.
Qed.

Lemma rasterise_binary_fill_monotone_witness :
  binary [[1; 1; 1]; [1; 1; 1]; [1; 1; 1]]
  /\ cell (fill [[1; 0; 1]; [1; 0; 1]; [1; 0; 1]]) 0 2 = 1.
Proof.
  destruct (rasterise_binary_fill_monotone unit_square_ring 1 0) as [Hb Hf].
  split.
  - apply Hb. vm_compute. reflexivity.
  - destruct (Hf [[1; 0; 1]; [1; 0; 1]; [1; 0; 1]]) as (_ & Hk & _);
      [vm_compute; reflexivity |].
    apply Hk. reflexivity.
Defined.

(** ** Further properties: pixel indexes and world coordinates *)















(** ** Further properties: constructed geotransforms *)






(** ** Further properties: quadrants *)

Lemma Qlt_bool_true (a b : Q) : (a < b)%Q -> Qlt_bool a b = true.
Proof.
  intros H. unfold Qlt_bool. destruct (Qle_bool b a) eqn:E; [| reflexivity].
  apply Qle_bool_iff in E. lra.
Qed.

Lemma Qlt_bool_false (a b : Q) : (b <= a)%Q -> Qlt_bool a b = false.
Proof.
  intros H. unfold Qlt_bool. apply Qle_bool_iff in H. now rewrite H.
Qed.

Ltac eval_Qlt_bool :=
  repeat match goal with
         | |- context [Qlt_bool ?a ?b] =>
             first [rewrite (Qlt_bool_true a b) by lra
                   | rewrite (Qlt_bool_false a b) by lra]
         end;
  cbn [andb].

(** X8: [get_quadrant] returns [None] exactly when one of the coordinates is
    zero, and one of 1, 2, 3, 4 for every other point. *)
Theorem get_quadrant_none_iff_on_axis (x y : Q) :
  (get_quadrant x y = None <-> (x == 0 \/ y == 0)%Q)
  /\ (forall q, get_quadrant x y = Some q -> 1 <= q <= 4).
Proof.
  unfold get_quadrant.
  destruct (Q_dec x 0) as [[Hx | Hx] | Hx], (Q_dec y 0) as [[Hy | Hy] | Hy];
    eval_Qlt_bool;
    (split; [split; [try discriminate; intros _; auto | intros [E | E]; try reflexivity; lra]
            | intros q [= <-] || (intros q; discriminate); lia]).
Qed.

(** X9: a quarter turn against the clock, [(x, y)] to [(-y, x)], takes a
    point of quadrant 1, 2, 3, 4 to quadrant 2, 3, 4, 1 and a point on an
    axis to a point on an axis. *)
Theorem get_quadrant_quarter_turn (x y : Q) :
  get_quadrant (- y) x = option_map next_quadrant (get_quadrant x y).
Proof.
  unfold get_quadrant.
  destruct (Q_dec x 0) as [[Hx | Hx] | Hx], (Q_dec y 0) as [[Hy | Hy] | Hy];
    eval_Qlt_bool; reflexivity.
Qed.

(** ** Further properties: polar points *)

Lemma pow10_pos (n : nat) : (0 < inject_Z (10 ^ Z.of_nat n))%Q.
Proof.
  rewrite <- (Zlt_Qlt 0). apply Z.pow_pos_nonneg; lia.
Qed.


(** A number that has been rounded to [n] decimals is not moved by rounding
    it again, with a zero term added or not. *)
Lemma round_ndigits_idempotent (x c : Q) (n : nat) :
  round_ndigits (round_ndigits x n + 0 * c) n = round_ndigits x n.
Proof.
  unfold round_ndigits at 1 3.
  pose proof (pow10_pos n) as HP.
  f_equal. f_equal.
  transitivity (round (inject_Z (round (x * inject_Z (10 ^ Z.of_nat n)))));
    [apply round_comp | apply round_inject_Z].
  unfold round_ndigits. field. lra.
Qed.


(** X11: a step of length 0 from a point that [polar_point] returned gives
    that point again, at every azimuth: the point is already rounded. *)
Theorem polar_point_zero_step (cos sin : Q -> Q) (orig : Q * Q)
        (dist angle angle' : Q) :
  polar_point cos sin (polar_point cos sin orig dist angle) 0 angle'
  = polar_point cos sin orig dist angle.
Proof.
  destruct orig as [x y]. cbn [polar_point].
  now rewrite !round_ndigits_idempotent.
Qed.

(** ** Further properties: inner angles *)

(** X12: [get_inner_angle] never returns an angle.  With fewer than two
    coordinates it raises [IndexError]; with two or more it raises
    [TypeError], because [vertices] is [None] after the assignment of the
    result of [append]. *)
Theorem get_inner_angle_never_returns (arccos sqrt : Q -> Q) (pi : Q)
        (coords : list (Q * Q)) (deg : bool) :
  ((length coords < 2)%nat
   /\ get_inner_angle arccos sqrt pi coords deg = Raises (Builtin IndexError))
  \/ ((2 <= length coords)%nat
      /\ get_inner_angle arccos sqrt pi coords deg = Raises TypeError).
Proof.
  unfold get_inner_angle. cbv zeta.
  destruct (nth_error coords 1) as [second |] eqn:E.
  - right. split; [| cbn [py_getitem]; rewrite E; reflexivity].
    assert (H : nth_error coords 1 <> None) by congruence.
    apply nth_error_Some in H. lia.
  - left. split; [| cbn [py_getitem]; rewrite E; reflexivity].
    apply nth_error_None in E. lia.
Qed.

(** ** Further properties: bounding boxes *)

(** X13: for longitudes between -180 and 180, the corners that [bbox2polygon]
    passes on run from the left longitude eastwards to a longitude [east]
    that is the right one, or the right one plus 360 when the box crosses
    the date line; the width [east - left] is between 0 and 360. *)
Theorem bbox_corners_west_to_east (left lower right upper : Q) :
  (-180 <= left <= 180)%Q -> (-180 <= right <= 180)%Q ->
  exists east,
    bbox_corners ((left, lower), (right, upper))
    = [(left, lower); (left, upper); (east, upper); (east, lower)]
    /\ ((left <= right)%Q /\ east = right
        \/ (right < left)%Q /\ east = (right + 360)%Q)
    /\ (0 <= east - left <= 360)%Q.
Proof.
  intros Hl Hr. unfold bbox_corners. cbv zeta. cbn [fst snd].
  destruct (Qlt_le_dec right left) as [H | H].
  - rewrite (Qlt_bool_true _ _ H). cbn [fst snd].
    exists (right + 360)%Q. split; [reflexivity |]. split; [right; auto | lra].
  - rewrite (Qlt_bool_false _ _ H).
    exists right. split; [reflexivity |]. split; [left; auto | lra].
Qed.

Lemma bbox_corners_west_to_east_witness :
  exists east,
    bbox_corners ((170, -10), (-170, 10))%Q
    = [(170, -10); (170, 10); (east, 10); (east, -10)]%Q
    /\ ((170 <= -170)%Q /\ east = (-170)%Q
        \/ (-170 < 170)%Q /\ east = (-170 + 360)%Q)
    /\ (0 <= east - 170 <= 360)%Q.
Proof.
  apply (bbox_corners_west_to_east 170 (-10) (-170) 10);
    split; discriminate.
Defined.

(** X14: the ring of corners runs with the clock (its signed area is
    negative) for every box with [lower < upper] whose longitudes lie
    between -180 and 180, differ, and are not 180 and -180. *)
Theorem bbox_corners_clockwise (left lower right upper : Q) :
  (-180 <= left <= 180)%Q -> (-180 <= right <= 180)%Q ->
  (lower < upper)%Q -> ~ (left == right)%Q -> ~ (left - right == 360)%Q ->
  (signed_area2 (bbox_corners ((left, lower), (right, upper))) < 0)%Q.
Proof.
  intros Hl Hr Hlu Hne Hfull. unfold bbox_corners. cbv zeta. cbn [fst snd].
  destruct (Qlt_le_dec right left) as [H | H].
  - rewrite (Qlt_bool_true _ _ H).
    cbn [fst snd signed_area2 shoelace].
    assert (Hw : (0 < right + 360 - left)%Q).
    { destruct (Qlt_le_dec left (right + 360)) as [H' | H']; [lra |].
      exfalso. apply Hfull. lra. }
    assert (Hp : (0 < (right + 360 - left) * (upper - lower))%Q)
      by (apply Qmult_lt_0_compat; lra).
    nra.
  - rewrite (Qlt_bool_false _ _ H).
    cbn [fst snd signed_area2 shoelace].
    assert (Hw : (0 < right - left)%Q).
    { apply Qle_lteq in H. destruct H as [H | H]; [lra | contradiction]. }
    assert (Hp : (0 < (right - left) * (upper - lower))%Q)
      by (apply Qmult_lt_0_compat; lra).
    nra.
Qed.

Lemma bbox_corners_clockwise_witness :
  (signed_area2 (bbox_corners ((170, -10), (-170, 10))%Q) < 0)%Q.
Proof.
  apply (bbox_corners_clockwise 170 (-10) (-170) 10);
    try (split; discriminate); try reflexivity; discriminate.
Defined.

(** ** Further properties: what [rasterise_polygon] returns and raises *)




Lemma erode_once_shape (r c : nat) (img : ndarray) :
  has_shape r c img -> has_shape r c (erode_once img).
Proof.
  intros [Hr Hc]. unfold erode_once. split.
  - now rewrite length_map, length_seq.
  - apply Forall_map. apply Forall_forall. intros i Hi.
    apply in_seq in Hi.
    rewrite length_map, length_seq.
    rewrite Forall_forall in Hc. apply Hc. apply nth_In. lia.
Qed.

Lemma erode_shape (r c : nat) (img : ndarray) (iterations : Z) :
  has_shape r c img -> has_shape r c (erode img iterations).
Proof.
  intros H. unfold erode.
  induction (Z.to_nat iterations) as [| n IH]; cbn [Nat.iter nat_rect];
    [assumption | now apply erode_once_shape].
Qed.

Lemma slice_both_length {A : Type} (b : nat) (l : list A) :
  length (slice_both b l) = (length l - b - b)%nat.
Proof.
  unfold slice_both. rewrite length_firstn, length_skipn. lia.
Qed.

(** Erosion keeps the shape and the crop takes [buffer] cells off each
    side. *)
Lemma apply_buffer_shape (r c : nat) (a : ndarray) (buffer : Z) :
  0 <= buffer -> has_shape r c a ->
  has_shape (r - Z.to_nat buffer - Z.to_nat buffer)
            (c - Z.to_nat buffer - Z.to_nat buffer) (apply_buffer a buffer).
Proof.
  intros Hb H. unfold apply_buffer.
  destruct (buffer =? 0) eqn:E; cbn [negb].
  - apply Z.eqb_eq in E. subst buffer. cbn [Z.to_nat].
    now rewrite !Nat.sub_0_r.
  - apply (erode_shape r c a buffer) in H. destruct H as [Hr Hc]. split.
    + now rewrite length_map, slice_both_length, Hr.
    + apply Forall_map. apply slice_both_Forall.
      eapply Forall_impl; [| exact Hc].
      intros row Hrow. cbv beta. now rewrite slice_both_length, Hrow.
Qed.

(** X16: the mask returned at a positive resolution has
    [round((y_max - y_min) / sres) + 1] rows of
    [round((x_max - x_min) / sres) + 1] cells, whatever the buffer: the crop
    takes off exactly the margin that the buffer added. *)
Theorem rasterise_shape_without_buffer (points : list (Q * Q)) (sres : Q)
        (buffer : Z) (m : ndarray) (x_min x_max y_min y_max : Q) :
  (0 < sres)%Q ->
  rasterise_polygon points sres buffer = Ok m ->
  is_min_of x_min (map fst points) -> is_max_of x_max (map fst points) ->
  is_min_of y_min (map snd points) -> is_max_of y_max (map snd points) ->
  Z.of_nat (length m) = round ((y_max - y_min) / sres) + 1
  /\ Forall (fun row => Z.of_nat (length row)
                        = round ((x_max - x_min) / sres) + 1) m.
Proof.
  intros Hs Hm Hxmin Hxmax Hymin Hymax.
  unfold rasterise_polygon, filled_raster in Hm.
  apply bind_ok in Hm. destruct Hm as [filled [Hm [= <-]]].
  apply bind_ok in Hm. destruct Hm as [flags [Hflags [= <-]]].
  apply edge_flags_shape_binary in Hflags.
  destruct Hflags as (x_min' & x_max' & y_min' & y_max' & Hxmin' & Hxmax'
                      & Hymin' & Hymax' & _ & _ & Hshape & _).
  assert (Er : round ((y_max - y_min) / sres) = round ((y_max' - y_min') / sres)).
  { apply round_comp.
    rewrite (is_min_of_unique _ _ _ Hymin Hymin').
    rewrite (is_max_of_unique _ _ _ Hymax Hymax'). reflexivity. }
  assert (Ec : round ((x_max - x_min) / sres) = round ((x_max' - x_min') / sres)).
  { apply round_comp.
    rewrite (is_min_of_unique _ _ _ Hxmin Hxmin').
    rewrite (is_max_of_unique _ _ _ Hxmax Hxmax'). reflexivity. }
  rewrite Er, Ec.
  assert (Hy : (y_min' <= y_max')%Q).
  { destruct Hymin' as [[y [Hy _]] Hlo]. destruct Hymax' as [_ Hhi].
    specialize (Hlo _ Hy). specialize (Hhi _ Hy). lra. }
  assert (Hx : (x_min' <= x_max')%Q).
  { destruct Hxmin' as [[x [Hx _]] Hlo]. destruct Hxmax' as [_ Hhi].
    specialize (Hlo _ Hx). specialize (Hhi _ Hx). lra. }
  assert (Hrows : 0 <= round ((y_max' - y_min') / sres)).
  { apply round_nonneg. apply Qle_shift_div_l; lra. }
  assert (Hcols : 0 <= round ((x_max' - x_min') / sres)).
  { apply round_nonneg. apply Qle_shift_div_l; lra. }
  pose proof (Z.abs_nonneg buffer) as Hb.
  apply fill_shape in Hshape.
  apply (apply_buffer_shape _ _ _ (Z.abs buffer) Hb) in Hshape.
  destruct Hshape as [Hlen Hrow]. split.
  - rewrite Hlen. lia.
  - eapply Forall_impl; [| exact Hrow].
    intros row E. cbv beta in *. rewrite E. lia.
Qed.

Lemma rasterise_shape_without_buffer_witness :
  Z.of_nat (length [[0; 0; 0; 0; 0]; [0; 1; 1; 1; 0]; [0; 1; 1; 1; 0];
                    [0; 1; 1; 1; 0]; [0; 0; 0; 0; 0]])
  = round ((4 - 0) / 1) + 1
  /\ Forall (fun row => Z.of_nat (length row) = round ((4 - 0) / 1) + 1)
            [[0; 0; 0; 0; 0]; [0; 1; 1; 1; 0]; [0; 1; 1; 1; 0];
             [0; 1; 1; 1; 0]; [0; 0; 0; 0; 0]].
Proof.
  apply (rasterise_shape_without_buffer
           [(0, 0); (4, 0); (4, 4); (0, 4); (0, 0)]%Q 1 1 _ 0 4 0 4).
  - reflexivity.
  - vm_compute. reflexivity.
  - split; [exists 0%Q; split; [simpl; tauto | reflexivity] |].
    simpl. intros x [<- | [<- | [<- | [<- | [<- | []]]]]]; discriminate.
  - split; [exists 4%Q; split; [simpl; tauto | reflexivity] |].
    simpl. intros x [<- | [<- | [<- | [<- | [<- | []]]]]]; discriminate.
  - split; [exists 0%Q; split; [simpl; tauto | reflexivity] |].
    simpl. intros x [<- | [<- | [<- | [<- | [<- | []]]]]]; discriminate.
  - split; [exists 4%Q; split; [simpl; tauto | reflexivity] |].
    simpl. intros x [<- | [<- | [<- | [<- | [<- | []]]]]]; discriminate.
Defined.

(** At a positive resolution the contour pass of a non-empty ring starts from
    the raster of zeros of the shape of the bounding box. *)
Lemma edge_flags_from_zeros (points : list (Q * Q)) (sres : Q) (buffer : Z) :
  (0 < sres)%Q -> 0 <= buffer -> points <> [] ->
  exists x_min x_max y_min y_max,
    is_min_of x_min (map fst points) /\ is_max_of x_max (map fst points)
    /\ is_min_of y_min (map snd points) /\ is_max_of y_max (map snd points)
    /\ 0 <= round ((y_max - y_min) / sres)
    /\ 0 <= round ((x_max - x_min) / sres)
    /\ edge_flags points sres buffer
       = draw_edges sres buffer x_min y_max (consecutive_pairs points)
           (repeat (repeat 0 (Z.to_nat (round ((x_max - x_min) / sres)
                                        + 1 + 2 * buffer)))
                   (Z.to_nat (round ((y_max - y_min) / sres) + 1 + 2 * buffer))).
Proof.
  intros Hs Hb Hne.
  unfold edge_flags.
  destruct points as [| v rest]; [congruence |].
  cbn [zip_star bind].
  destruct (min (map fst (v :: rest))) as [x_min |] eqn:Exmin;
    [| discriminate Exmin].
  destruct (max (map fst (v :: rest))) as [x_max |] eqn:Exmax;
    [| discriminate Exmax].
  destruct (min (map snd (v :: rest))) as [y_min |] eqn:Eymin;
    [| discriminate Eymin].
  destruct (max (map snd (v :: rest))) as [y_max |] eqn:Eymax;
    [| discriminate Eymax].
  cbn [bind].
  apply min_is_min in Exmin, Eymin. apply max_is_max in Exmax, Eymax.
  assert (Hs0 : ~ (sres == 0)%Q) by lra.
  rewrite !(truediv_ok _ _ Hs0). cbn [bind].
  assert (Hx : (x_min <= x_max)%Q).
  { pose proof (proj2 Exmin (fst v) (or_introl eq_refl)).
    pose proof (proj2 Exmax (fst v) (or_introl eq_refl)). lra. }
  assert (Hy : (y_min <= y_max)%Q).
  { pose proof (proj2 Eymin (snd v) (or_introl eq_refl)).
    pose proof (proj2 Eymax (snd v) (or_introl eq_refl)). lra. }
  assert (Hrows : 0 <= round ((y_max - y_min) / sres)).
  { apply round_nonneg. apply Qle_shift_div_l; lra. }
  assert (Hcols : 0 <= round ((x_max - x_min) / sres)).
  { apply round_nonneg. apply Qle_shift_div_l; lra. }
  exists x_min, x_max, y_min, y_max.
  repeat (split; [assumption |]).
  unfold np_zeros.
  replace (_ <? 0) with false by (symmetry; apply Z.ltb_ge; lia).
  replace (_ <? 0) with false by (symmetry; apply Z.ltb_ge; lia).
  cbn [orb bind]. apply contour_consecutive_pairs.
Qed.

Lemma sum_repeat_zero (n : nat) : sum (repeat 0 n) = 0.
Proof. induction n as [| n IH]; cbn [repeat sum fold_right]; [reflexivity |]. exact IH. Qed.

Lemma draw_edges_horizontal (sres : Q) (buffer : Z) (x_min y_max : Q)
      (edges : list ((Q * Q) * (Q * Q))) (raster : ndarray) :
  (forall p q, In (p, q) edges -> (snd q - snd p == 0)%Q) ->
  draw_edges sres buffer x_min y_max edges raster = Ok raster.
Proof.
  induction edges as [| [p q] edges IH]; intros H; cbn [draw_edges];
    [reflexivity |].
  unfold draw_edge. cbv zeta.
  rewrite (Qeq_eq_bool _ _ (H p q (or_introl eq_refl))). cbn [bind].
  apply IH. intros p' q' Hin. apply H. now right.
Qed.

(** X17: a ring whose vertices all have the same height is not an error: at
    a positive resolution and with buffer 0 it is rasterised to one row of
    [round((x_max - x_min) / sres) + 1] zeros. *)
Theorem rasterise_flat_ring (points : list (Q * Q)) (sres : Q)
        (x_min x_max : Q) :
  (0 < sres)%Q -> points <> [] ->
  (forall p q, In p points -> In q points -> (snd p == snd q)%Q) ->
  is_min_of x_min (map fst points) -> is_max_of x_max (map fst points) ->
  rasterise_polygon points sres 0
  = Ok [repeat 0 (Z.to_nat (round ((x_max - x_min) / sres) + 1))].
Proof.
  intros Hs Hne Hflat Hxmin Hxmax.
  destruct (edge_flags_from_zeros points sres 0 Hs (Z.le_refl 0) Hne)
    as (x_min' & x_max' & y_min & y_max & Hxmin' & Hxmax' & Hymin & Hymax
        & Hrows & Hcols & E).
  unfold rasterise_polygon, filled_raster. cbn [Z.abs]. rewrite E.
  rewrite draw_edges_horizontal.
  2:{ intros p q Hin. destruct (consecutive_pairs_In _ _ _ Hin) as [Hp Hq].
      rewrite (Hflat q p Hq Hp). ring. }
  cbn [bind].
  assert (Er : round ((y_max - y_min) / sres) = 0).
  { transitivity (round (inject_Z 0)); [apply round_comp | reflexivity].
    destruct Hymin as [[a [Ha Ea]] _]. destruct Hymax as [[b [Hb Eb]] _].
    apply in_map_iff in Ha, Hb.
    destruct Ha as [pa [<- Hpa]]. destruct Hb as [pb [<- Hpb]].
    rewrite <- Ea, <- Eb, (Hflat pb pa Hpb Hpa).
    change (inject_Z 0) with 0%Q. field. lra. }
  assert (Ec : round ((x_max' - x_min') / sres) = round ((x_max - x_min) / sres)).
  { apply round_comp.
    rewrite (is_min_of_unique _ _ _ Hxmin' Hxmin).
    rewrite (is_max_of_unique _ _ _ Hxmax' Hxmax). reflexivity. }
  rewrite Er, Ec. rewrite Z.add_0_r.
  change (Z.to_nat (0 + 1 + 2 * 0)) with 1%nat.
  cbn [repeat fill map apply_buffer Z.eqb negb]. unfold fill_row.
  now rewrite sum_repeat_zero.
Qed.

Lemma rasterise_flat_ring_witness :
  rasterise_polygon [(1, 5); (4, 5); (2, 5)]%Q 1 0
  = Ok [repeat 0 (Z.to_nat (round ((4 - 1) / 1) + 1))].
Proof.
  apply (rasterise_flat_ring [(1, 5); (4, 5); (2, 5)]%Q 1 1 4).
  - reflexivity.
  - discriminate.
  - simpl. intros p q [<- | [<- | [<- | []]]] [<- | [<- | [<- | []]]];
      reflexivity.
  - split; [exists 1%Q; split; [simpl; tauto | reflexivity] |].
    simpl. intros x [<- | [<- | [<- | []]]]; discriminate.
  - split; [exists 4%Q; split; [simpl; tauto | reflexivity] |].
    simpl. intros x [<- | [<- | [<- | []]]]; discriminate.
Defined.

(** ** Further properties: the mask does not depend on the position *)

Section Translation.

Variables (sres : Q) (buffer : Z) (dx dy : Q).
Variables (x_min' y_max' x_min y_max : Q).
Hypothesis x_min_moved : (x_min' == x_min + dx)%Q.
Hypothesis y_max_moved : (y_max' == y_max + dy)%Q.








End Translation.












(** ** Further properties: the cells of an edge and the filled rectangle *)













Section FlagsExact.

Variables (sres : Q) (buffer : Z) (x_min x_max y_min y_max : Q).
Hypothesis sres_pos : (0 < sres)%Q.
Hypothesis eps_le_sres : (EPS <= sres)%Q.
Hypothesis buffer_nonneg : 0 <= buffer.




End FlagsExact.











(** ** Further properties: rings smaller than the tolerance of the stop test *)




